(** * ParamDoWat: the extraction-and-aggregation engine

    A shallow embedding of the Burp site-map parameter tracker and the
    properties of its parser, tag classifier, aggregator and relationship
    engine.  The repository holds four variants of the program:
    - [src/Full_Files/app.py]                              (module [App]),
    - [src/ParaDoWat.py], first program                    (module [ParaDoWat]),
    - [src/ParaDoWat.py], second program,
      "burp-tracker-flask-app (5).py"                      (module [ParaDoWat5]),
    - [src/burp-tracker-streamlit.py]                      (module [Streamlit]).
    Functions that are the same in the variants are defined once.

    Python [str] is modelled as [string] (ASCII text), Python's
    insertion-ordered [dict] as an association list with unique keys (module
    [Dict]), Python's unordered [set] as stdpp's [gset] together with an
    arbitrary enumeration order, and the document tree that BeautifulSoup
    builds from the HTML text as the inductive type [Soup.node]; the parsers
    are functions of that tree. *)

From Stdlib Require Import ZArith Ascii String.
From stdpp Require Import base list strings gmap sorting.

(** ** Python string operations *)

Module PyStr.

(** [c.isspace()] on the 8-bit range: TAB, LF, VT, FF, CR, FS, GS, RS, US
    and the space character. *)
Definition is_space (c : ascii) : bool :=
  let n := N_of_ascii c in
  ((9 <=? n) && (n <=? 13) || (28 <=? n) && (n <=? 32))%N.

Fixpoint lstrip (s : string) : string :=
  match s with
  | EmptyString => EmptyString
  | String c s' => if is_space c then lstrip s' else s
  end.

Fixpoint rstrip (s : string) : string :=
  match s with
  | EmptyString => EmptyString
  | String c s' =>
    match rstrip s' with
    | EmptyString => if is_space c then EmptyString else String c EmptyString
    | r => String c r
    end
  end.

(** [s.strip()] *)
Definition strip (s : string) : string := rstrip (lstrip s).

Definition lower_char (c : ascii) : ascii :=
  let n := N_of_ascii c in
  if ((65 <=? n) && (n <=? 90))%N then ascii_of_N (n + 32) else c.

(** [s.lower()] *)
Fixpoint lower (s : string) : string :=
  match s with
  | EmptyString => EmptyString
  | String c s' => String (lower_char c) (lower s')
  end.

(** [s.startswith(p)] *)
Fixpoint startswith (p s : string) : bool :=
  match p, s with
  | EmptyString, _ => true
  | String a p', String b s' => if decide (a = b) then startswith p' s' else false
  | String _ _, EmptyString => false
  end.

(** [p in s] *)
Fixpoint contains (p s : string) : bool :=
  startswith p s ||
  match s with
  | EmptyString => false
  | String _ s' => contains p s'
  end.

(** [c in s] for a single character. *)
Fixpoint has_char (c : ascii) (s : string) : bool :=
  match s with
  | EmptyString => false
  | String a s' => if decide (a = c) then true else has_char c s'
  end.

(** [s.split(c, 1)] when [c in s]: the text before the first [c] and the
    text after it. *)
Fixpoint split1 (c : ascii) (s : string) : option (string * string) :=
  match s with
  | EmptyString => None
  | String a s' =>
    if decide (a = c) then Some (EmptyString, s')
    else match split1 c s' with
         | Some (l, r) => Some (String a l, r)
         | None => None
         end
  end.

(** Truthiness of a string: [bool(s)]. *)
Definition truthy (s : string) : bool :=
  match s with EmptyString => false | _ => true end.

(** [''.join(l)] *)
Definition join (l : list string) : string := foldr String.append EmptyString l.

End PyStr.

(** ** Python's insertion-ordered dictionary *)

Module Dict.
Section dict.
Context {V : Type}.

Definition t := list (string * V).

Definition empty : t := [].

(** [d.get(k)], [None] when [k not in d]. *)
Fixpoint get (k : string) (d : t) : option V :=
  match d with
  | [] => None
  | (k', v) :: d' => if decide (k' = k) then Some v else get k d'
  end.

(** [k in d] *)
Definition mem (k : string) (d : t) : bool :=
  match get k d with Some _ => true | None => false end.

(** [d[k] = v]: an existing key keeps its position, a new key goes last. *)
Fixpoint set (k : string) (v : V) (d : t) : t :=
  match d with
  | [] => [(k, v)]
  | (k', v') :: d' =>
      if decide (k' = k) then (k', v) :: d' else (k', v') :: set k v d'
  end.

Definition keys (d : t) : list string := d.*1.
Definition values (d : t) : list V := d.*2.
Definition items (d : t) : list (string * V) := d.

(** In-place mutation of the object stored under [k] (no effect when [k] is
    absent; the programs only mutate keys they have just ensured). *)
Fixpoint alter (f : V → V) (k : string) (d : t) : t :=
  match d with
  | [] => []
  | (k', v) :: d' =>
    if decide (k' = k) then (k', f v) :: d' else (k', v) :: alter f k d'
  end.
End dict.
Arguments t : clear implicits.
End Dict.

(** ** Tag classifier *)

(** [AUTO_TAG_PATTERNS]; the table is the same in the four programs. *)
Definition AUTO_TAG_PATTERNS : Dict.t (list string) :=
  [ ("File Upload", ["file"; "upload"; "document"; "doc"; "attachment"; "image"; "photo"; "pdf"]);
    ("IDOR", ["id"; "user"; "account"; "profile"; "uid"; "userid"; "accountid"]);
    ("XSS", ["search"; "query"; "q"; "keyword"; "message"; "comment"; "text"; "content"]);
    ("SQLi", ["id"; "sort"; "order"; "filter"; "category"; "type"]);
    ("Auth", ["token"; "session"; "auth"; "key"; "api"; "secret"; "password"; "login"]);
    ("Redirect", ["redirect"; "url"; "return"; "next"; "callback"; "continue"; "returnurl"]);
    ("Path Traversal", ["path"; "dir"; "folder"; "directory"; "file"; "filename"]);
    ("Admin", ["admin"; "role"; "privilege"; "permission"; "access"; "level"]);
    ("Debug", ["debug"; "test"; "dev"; "trace"; "verbose"; "log"]) ].

(** [any(pattern in lower_name for pattern in patterns)] *)
Definition any_pattern_in (patterns : list string) (lower_name : string) : bool :=
  existsb (fun pattern => PyStr.contains pattern lower_name) patterns.

(** The loop of [get_auto_tags] over [AUTO_TAG_PATTERNS.items()], appending to
  [tags]. *)
Definition get_auto_tags_loop (lower_name : string)
    (table : list (string * list string)) (tags : list string) : list string :=
  fold_left
    (fun tags '(tag, patterns) =>
     if any_pattern_in patterns lower_name then tags ++ [tag] else tags)
  table tags.

Definition get_auto_tags (param_name : string) : list string :=
  let lower_name := PyStr.lower param_name in
  get_auto_tags_loop lower_name (Dict.items AUTO_TAG_PATTERNS) [].


(** ** The BeautifulSoup document tree *)

Module Soup.

(** A page element.  [Comment] stands for the string classes that
    [get_text] skips (comments, doctypes, declarations); tag attributes are
    never read by the programs and are left out. *)
#[local] Unset Elimination Schemes.
Inductive node : Type :=
| NavigableString (s : string)
| Comment (s : string)
| Tag (name : string) (contents : list node).
#[local] Set Elimination Schemes.

(** [tag.children] *)
Definition children (n : node) : list node :=
  match n with
  | Tag _ cs => cs
  | _ => []
  end.

(** [child.name == nm]; strings have no tag name. *)
Definition is_tag (nm : string) (n : node) : bool :=
  match n with
  | Tag nm' _ => bool_decide (nm' = nm)
  | _ => false
  end.

(** [tag.descendants] in document order, each element paired with its
    [next_siblings]. *)
Fixpoint descendants_ctx (n : node) : list (node * list node) :=
  match n with
  | Tag _ cs =>
      (fix go (l : list node) : list (node * list node) :=
         match l with
         | [] => []
         | c :: l' => (c, l') :: descendants_ctx c ++ go l'
         end) cs
  | _ => []
  end.

(** The same walk over a list of siblings. *)
Fixpoint forest_ctx (l : list node) : list (node * list node) :=
  match l with
  | [] => []
  | c :: l' => (c, l') :: descendants_ctx c ++ forest_ctx l'
  end.

Definition descendants (n : node) : list node := (descendants_ctx n).*1.

(** [tag.find_all(nm)] *)
Definition find_all (nm : string) (n : node) : list node :=
  filter (λ d, is_tag nm d = true) (descendants n).

(** [tag.find(nm)] *)
Definition find (nm : string) (n : node) : option node :=
  head (find_all nm n).

(** [tag.find_all(nm, recursive=False)] *)
Definition find_all_children (nm : string) (n : node) : list node :=
  filter (λ d, is_tag nm d = true) (children n).

(** [tag.find_next_sibling(nm)], from the tag's [next_siblings]. *)
Definition find_next_sibling (nm : string) (next_siblings : list node)
    : option node :=
  head (filter (λ d, is_tag nm d = true) next_siblings).

(** The strings [get_text] joins: every [NavigableString] below the tag. *)
Definition all_strings (n : node) : list string :=
  omap (λ d, match d with NavigableString s => Some s | _ => None end)
       (descendants n).

(** [tag.get_text()] *)
Definition get_text (n : node) : string := PyStr.join (all_strings n).

(** [tag.get_text(strip=True)]: each string is stripped, empty ones are
    dropped. *)
Definition get_text_strip (n : node) : string :=
  PyStr.join (filter (λ s, PyStr.truthy s = true)
                     (PyStr.strip <$> all_strings n)).

(** [tag.string] *)
Fixpoint string_of (n : node) : option string :=
  match n with
  | NavigableString s => Some s
  | Comment s => Some s
  | Tag _ [c] => string_of c
  | Tag _ _ => None
  end.

(** [soup.find(nm, string=text)]: the first tag named [nm] whose [.string]
    is [text], with its [next_siblings]. *)
Definition find_with_string (nm text : string) (n : node)
    : option (node * list node) :=
  head (filter (λ d, is_tag nm d.1 = true ∧ string_of d.1 = Some text)
               (descendants_ctx n)).

(** The first tag named [nm] whose text contains [text], with its
    [next_siblings]:
    [for h in soup.find_all(nm): if text in h.get_text(): ...; break]. *)
Definition find_with_text (nm text : string) (n : node)
    : option (node * list node) :=
  head (filter (λ d, is_tag nm d.1 = true
                     ∧ PyStr.contains text (get_text d.1) = true)
               (descendants_ctx n)).

(** [tag.find(text=True, recursive=False)]: the first string child. *)
Definition find_text_child (n : node) : option string :=
  head (omap (λ d, match d with
                   | NavigableString s | Comment s => Some s
                   | Tag _ _ => None
                   end) (children n)).

End Soup.

(** ** URL records *)

(** [{'key': ..., 'value': ...}] *)
Record parameter : Type := { key : string; value : string }.

(** [{'url': ..., 'parameters': [...]}] *)
Record url_record : Type := { url : string; parameters : list parameter }.

(** Truthiness of a list: [bool(l)]. *)
Definition nonempty {A} (l : list A) : bool :=
  match l with [] => false | _ => true end.

(** ** Document parser: the parts the programs share *)

(** The body of [for param_li in ul.find_all('li')]: what one parameter line
    with text [param_text] appends to the [parameters] list. *)
Definition append_param (parameters : list parameter) (param_text : string)
    : list parameter :=
  if PyStr.truthy param_text && PyStr.has_char "=" param_text then
    match PyStr.split1 "=" param_text with
    | Some (k, v) =>
        parameters ++ [{| key := PyStr.strip k; value := PyStr.strip v |}]
    | None => parameters
    end
  else if PyStr.truthy param_text then
    parameters ++ [{| key := PyStr.strip param_text; value := "" |}]
  else parameters.

(** [for param_li in ul.find_all('li'): ...] *)
Definition read_params (ul : Soup.node) (parameters : list parameter)
    : list parameter :=
  fold_left append_param (Soup.get_text_strip <$> Soup.find_all "li" ul)
            parameters.

(** The sibling-shape loop keeps the list [urls] and the reference
    [current_url], which aliases an element of [urls]: the reference is the
    index of that element. *)
Record loop_state : Type :=
  { urls : list url_record; current_url : option nat }.

Definition loop_init : loop_state := {| urls := []; current_url := None |}.

(** [current_url['parameters']] mutated in place through the alias. *)
Definition extend_record (ul : Soup.node) (u : url_record) : url_record :=
  {| url := url u; parameters := read_params ul (parameters u) |}.

(** One iteration of [for child in main_ul.children]. *)
Definition loop_step (st : loop_state) (child : Soup.node) : loop_state :=
  if Soup.is_tag "li" child then
    let url_text := Soup.get_text_strip child in
    if PyStr.startswith "http" url_text then
      {| urls := urls st ++ [{| url := url_text; parameters := [] |}];
         current_url := Some (length (urls st)) |}
    else st
  else if Soup.is_tag "ul" child then
    match current_url st with
    | Some i =>
        {| urls := alter (extend_record child) i (urls st);
           current_url := Some i |}
    | None => st
    end
  else st.

Definition sibling_loop (children : list Soup.node) : loop_state :=
  fold_left loop_step children loop_init.

(** [[u for u in urls if u['parameters']]] *)
Definition with_parameters (urls : list url_record) : list url_record :=
  filter (λ u, nonempty (parameters u) = true) urls.

(** ** Python's [sorted] *)

Section sorted.
Context {A K : Type}.
Variable lt : K → K → bool.
Variable sort_key : A → K.
Variable reverse : bool.

(** [y] must stay in front of a later-inserted [x]: its key is smaller
    (larger when [reverse=True]). *)
Definition stays_before (y x : A) : bool :=
  if reverse then lt (sort_key x) (sort_key y)
  else lt (sort_key y) (sort_key x).

Fixpoint sorted_insert (x : A) (l : list A) : list A :=
  match l with
  | [] => [x]
  | y :: l' =>
      if stays_before y x then y :: sorted_insert x l' else x :: y :: l'
  end.

(** [sorted(l, key=sort_key, reverse=reverse)]: a stable sort that compares
    keys with [<] only; elements with equal keys keep their input order,
    also under [reverse=True]. *)
Definition sorted (l : list A) : list A := foldr sorted_insert [] l.
End sorted.

(** [<] on Python tuples, component by component. *)
Definition tuple_lt {A B} `{EqDecision A} (lta : A → A → bool)
    (ltb : B → B → bool) (x y : A * B) : bool :=
  if decide (x.1 = y.1) then ltb x.2 y.2 else lta x.1 y.1.

(** [<] on [str]: code point by code point, a proper prefix first. *)
Definition str_lt : string → string → bool := String.ltb.

(** ** Relationship engine *)

(** [co_occurrence[key] += 1] on a [defaultdict(int)]. *)
Definition increment (k : string) (d : Dict.t nat) : Dict.t nat :=
  Dict.set k (default 0 (Dict.get k d) + 1) d.

(** The body of [for key in param_keys] in [get_co_occurrence]. *)
Definition key_step (target_param : string) (co_occurrence : Dict.t nat)
    (k : string) : Dict.t nat :=
  if decide (k ≠ target_param) then increment k co_occurrence
  else co_occurrence.

(** The body of [for url_obj in urls] in [get_co_occurrence]. *)
Definition co_step (target_param : string) (co_occurrence : Dict.t nat)
    (url_obj : url_record) : Dict.t nat :=
  let param_keys := key <$> parameters url_obj in
  if bool_decide (target_param ∈ param_keys) then
    fold_left (key_step target_param) param_keys co_occurrence
  else co_occurrence.

Definition co_occurrence_counts (urls : list url_record)
    (target_param : string) : Dict.t nat :=
  fold_left (co_step target_param) urls Dict.empty.

(** [{'param': ..., 'count': ..., 'auto_tags': ...}] *)
Record relationship : Type :=
  { param : string; count : nat; auto_tags : list string }.

(** [get_co_occurrence]; the Streamlit program returns the same pairs
    without the tags. *)
Definition get_co_occurrence (urls : list url_record) (target_param : string)
    : list relationship :=
  let co_occurrence := co_occurrence_counts urls target_param in
  (λ x, {| param := x.1; count := x.2; auto_tags := get_auto_tags x.1 |})
    <$> take 10 (sorted Nat.ltb snd true (Dict.items co_occurrence)).

(** ** Aggregator: the parts the programs share *)

(** [param['value'] if param['value'] else '(empty)'] *)
Definition value_key (p : parameter) : string :=
  if PyStr.truthy (value p) then value p else "(empty)".

(** [if value not in values: values[value] = []] followed by
    [values[value].append(url)]. *)
Definition add_url (v u : string) (vals : Dict.t (list string))
    : Dict.t (list string) :=
  let vals := if Dict.mem v vals then vals else Dict.set v [] vals in
  Dict.alter (λ l, l ++ [u]) v vals.

(** The loop of [process_urls] is the same in the programs up to the entry
    it creates for a new key ([new_entry]) and the way one parameter
    instance mutates the entry of its key ([visit]). *)
Section scan_with.
Context {E : Type}.
Variable new_entry : string → E.
Variable visit : string → parameter → E → E.

(** The body of [for param in url_obj['parameters']]. *)
Definition param_step (u : string) (st : Dict.t E * gset string)
    (p : parameter) : Dict.t E * gset string :=
  let '(param_data, all_params) := st in
  let all_params := {[key p]} ∪ all_params in
  let param_data :=
    if Dict.mem (key p) param_data then param_data
    else Dict.set (key p) (new_entry (key p)) param_data in
  (Dict.alter (visit u p) (key p) param_data, all_params).

(** [for url_obj in urls: for param in url_obj['parameters']: ...] *)
Definition scan_with (urls : list url_record) : Dict.t E * gset string :=
  fold_left (λ st url_obj,
               fold_left (param_step (url url_obj)) (parameters url_obj) st)
            urls (Dict.empty, ∅).
End scan_with.

(** ** [src/Full_Files/app.py] *)

Module App.

Definition parse_burp_html (soup : Soup.node) : list url_record :=
  let dynamic_header := Soup.find_with_string "h2" "Dynamic URLs" soup in
  let main_ul :=
    match dynamic_header with
    | None =>
        match Soup.find "body" soup with
        | Some body => Soup.find "ul" body
        | None => None
        end
    | Some (_, next_siblings) => Soup.find_next_sibling "ul" next_siblings
    end in
  match main_ul with
  | None => []
  | Some main_ul =>
      with_parameters (urls (sibling_loop (Soup.children main_ul)))
  end.

Record entry : Type :=
  { values : Dict.t (list string);
    total_occurrences : nat;
    auto_tags : list string }.

Record index : Type :=
  { params : Dict.t entry;
    all_param_names : list string;
    total_urls : nat;
    total_params : nat }.

Definition new_entry (k : string) : entry :=
  {| values := Dict.empty; total_occurrences := 0;
     auto_tags := get_auto_tags k |}.

Definition visit (u : string) (p : parameter) (e : entry) : entry :=
  {| values := add_url (value_key p) u (values e);
     total_occurrences := total_occurrences e + 1;
     auto_tags := auto_tags e |}.

(** [for url_obj in urls: for param in url_obj['parameters']: ...] *)
Definition scan : list url_record → Dict.t entry * gset string :=
  scan_with new_entry visit.

(** [lambda p: (-param_data[p]['total_occurrences'], p)]; every name that
    is sorted is a key of [param_data], so the lookup cannot fail. *)
Definition sort_key (param_data : Dict.t entry) (p : string) : Z * string :=
  match Dict.get p param_data with
  | Some data => (- Z.of_nat (total_occurrences data), p)%Z
  | None => (0%Z, p)
  end.

Definition key_lt : Z * string → Z * string → bool :=
  tuple_lt Z.ltb str_lt.

(** [list_of_set] is [list(all_params)]: the iteration order of a Python
    [set] of strings depends on the hash seed of the run, so the program is
    modelled for an arbitrary order. *)
Definition process_urls (list_of_set : gset string → list string)
    (urls : list url_record) : index :=
  let '(param_data, all_params) := scan urls in
  {| params := param_data;
     all_param_names :=
       sorted key_lt (sort_key param_data) false (list_of_set all_params);
     total_urls := length urls;
     total_params := size all_params |}.

End App.

(** ** [src/ParaDoWat.py], first program

    The document is the output of [extract_dynamic_urls.py]. *)

Module ParaDoWat.

Definition parse_burp_html (soup : Soup.node) : list url_record :=
  match Soup.find "ul" soup with
  | None => []
  | Some main_ul =>
      with_parameters (urls (sibling_loop (Soup.children main_ul)))
  end.

Record entry : Type :=
  { values : Dict.t (list string);
    total_occurrences : nat;
    auto_tags : list string;
    has_empty_values : bool }.

Record index : Type :=
  { params : Dict.t entry;
    all_param_names : list string;
    total_urls : nat;
    total_params : nat }.

Definition new_entry (k : string) : entry :=
  {| values := Dict.empty; total_occurrences := 0;
     auto_tags := get_auto_tags k; has_empty_values := false |}.

Definition visit (u : string) (p : parameter) (e : entry) : entry :=
  {| values := add_url (value_key p) u (values e);
     total_occurrences := total_occurrences e + 1;
     auto_tags := auto_tags e;
     has_empty_values :=
       if negb (PyStr.truthy (value p)) then true else has_empty_values e |}.

(** [for url_obj in urls: for param in url_obj['parameters']: ...] *)
Definition scan : list url_record → Dict.t entry * gset string :=
  scan_with new_entry visit.

(** [has_values] of the nested function [sort_key]. *)
Definition has_values (data : entry) : bool :=
  negb (has_empty_values data) || (1 <? length (values data)).

(** The nested function [sort_key]; every name that is sorted is a key of
    [param_data], so the lookup cannot fail. *)
Definition sort_key (param_data : Dict.t entry) (param_name : string)
    : Z * (Z * (Z * string)) :=
  match Dict.get param_name param_data with
  | Some data =>
      let num_tags := Z.of_nat (length (auto_tags data)) in
      let occurrences := Z.of_nat (total_occurrences data) in
      (- occurrences, (- num_tags,
        ((if has_values data then 0 else 1), param_name)))%Z
  | None => (0, (0, (0, param_name)))%Z
  end.

Definition key_lt : Z * (Z * (Z * string)) → Z * (Z * (Z * string)) → bool :=
  tuple_lt Z.ltb (tuple_lt Z.ltb (tuple_lt Z.ltb str_lt)).

(** [list_of_set] is [list(all_params)], see [App.process_urls]. *)
Definition process_urls (list_of_set : gset string → list string)
    (urls : list url_record) : index :=
  let '(param_data, all_params) := scan urls in
  {| params := param_data;
     all_param_names :=
       sorted key_lt (sort_key param_data) false (list_of_set all_params);
     total_urls := length urls;
     total_params := size all_params |}.

End ParaDoWat.

(** ** [src/burp-tracker-streamlit.py] *)

Module Streamlit.

Inductive exception : Type := AttributeError.

(** [soup.find('body').find('ul')] raises when the document has no [body]. *)
Definition parse_burp_html (soup : Soup.node)
    : exception + list url_record :=
  match Soup.find "body" soup with
  | None => inl AttributeError
  | Some body =>
      match Soup.find "ul" body with
      | None => inr []
      | Some main_ul =>
          inr (with_parameters (urls (sibling_loop (Soup.children main_ul))))
      end
  end.

End Streamlit.

(** ** [src/ParaDoWat.py], second program: the nested shape *)

Module ParaDoWat5.

(** One iteration of [for li in main_ul.find_all('li', recursive=False)]. *)
Definition li_step (urls : list url_record) (li : Soup.node)
    : list url_record :=
  let url_text :=
    match Soup.find_text_child li with
    | Some t => if PyStr.truthy t then Some (PyStr.strip t) else Some t
    | None => None
    end in
  match url_text with
  | None => urls
  | Some url_text =>
      if negb (PyStr.truthy url_text)
         || negb (PyStr.startswith "http" url_text) then urls
      else
        let parameters :=
          match Soup.find "ul" li with
          | Some nested_ul => read_params nested_ul []
          | None => []
          end in
        if nonempty parameters
        then urls ++ [{| url := url_text; parameters := parameters |}]
        else urls
  end.

(** The [extract()] calls between the lookup of [main_ul] and the loop
    detach the siblings that follow the next [h2]; they leave the contents
    of [main_ul], which the loop reads, as they are. *)
Definition parse_burp_html (soup : Soup.node) : list url_record :=
  match Soup.find_with_text "h2" "Dynamic URLs" soup with
  | None => []
  | Some (_, next_siblings) =>
      match Soup.find_next_sibling "ul" next_siblings with
      | None => []
      | Some main_ul =>
          fold_left li_step (Soup.find_all_children "li" main_ul) []
      end
  end.

(** [process_urls] is, line by line, the one of [src/Full_Files/app.py]. *)
Definition process_urls := App.process_urls.

End ParaDoWat5.

(** ** [src/burp-tracker-streamlit.py]: the data behind the dashboard *)

Module Dashboard.

(** [param_data[key][value].append(url_obj['url'])] on a [defaultdict] of
    [defaultdict(list)]: a missing key gets an empty mapping, a missing value
    an empty list. *)
Definition data_step (u : string) (param_data : Dict.t (Dict.t (list string)))
    (p : parameter) : Dict.t (Dict.t (list string)) :=
  let param_data :=
    if Dict.mem (key p) param_data then param_data
    else Dict.set (key p) Dict.empty param_data in
  Dict.alter (add_url (value_key p) u) (key p) param_data.

Definition get_parameter_data (urls : list url_record)
    : Dict.t (Dict.t (list string)) :=
  fold_left (λ param_data url_obj,
               fold_left (data_step (url url_obj)) (parameters url_obj)
                         param_data)
            urls Dict.empty.

(** [sorted(param_data.keys())] *)
Definition all_params (param_data : Dict.t (Dict.t (list string)))
    : list string :=
  sorted str_lt id false (Dict.keys param_data).

(** [sum(len(urls) for urls in values.values())]: the "Occurrences" metric
    and the count shown beside each name. *)
Definition total_occurrences (values : Dict.t (list string)) : nat :=
  sum_list_with length (Dict.values values).

(** The "Total Instances" metric. *)
Definition total_instances (param_data : Dict.t (Dict.t (list string)))
    : nat :=
  sum_list_with total_occurrences (Dict.values param_data).

(** [[p for p in all_params if search_term.lower() in p.lower()]] *)
Definition filtered_params (all_params : list string) (search_term : string)
    : list string :=
  filter (λ p, PyStr.contains (PyStr.lower search_term) (PyStr.lower p) = true)
         all_params.

End Dashboard.

(** ** [src/extract-dynamic-urls.py] *)

Module Extract.

Inductive exit : Type := SystemExit (code : nat).

(** ['Dynamic' in h2_text and 'URL' in h2_text] on the stripped text. *)
Definition is_target (h2 : Soup.node) : bool :=
  let h2_text := Soup.get_text_strip h2 in
  PyStr.contains "Dynamic" h2_text && PyStr.contains "URL" h2_text.

(** The first [h2] that passes the test, with its [next_siblings]. *)
Definition target_h2 (soup : Soup.node) : option (Soup.node * list Soup.node) :=
  head (filter (λ d, Soup.is_tag "h2" d.1 = true ∧ is_target d.1 = true)
               (Soup.descendants_ctx soup)).

(** The count printed as "Found ... URLs". *)
Definition url_count (ul : Soup.node) : nat :=
  length (filter (λ li, PyStr.startswith "http" (Soup.get_text_strip li) = true)
                 (Soup.find_all_children "li" ul)).

(** The script without its file and console I/O: the list whose markup it
    writes into the new page, and the URL count it prints; [sys.exit(1)]
    when the heading or the list is missing. *)
Definition extract_dynamic_urls (soup : Soup.node)
    : exit + Soup.node * nat :=
  match target_h2 soup with
  | None => inl (SystemExit 1)
  | Some (_, next_siblings) =>
      match Soup.find_next_sibling "ul" next_siblings with
      | None => inl (SystemExit 1)
      | Some ul => inr (ul, url_count ul)
      end
  end.

End Extract.

(** ** The routes of [src/Full_Files/app.py]

    The second program of [src/ParaDoWat.py] has the same routes around its
    own parser. *)

Module Routes.

(** [app_data = {'urls': [], 'processed': None}] *)
Record app_data : Type :=
  { urls : list url_record; processed : option App.index }.

Definition initial : app_data := {| urls := []; processed := None |}.

Inductive exception : Type := UnicodeDecodeError.

(** [jsonify(body)] with status 200, [jsonify({'error': ...}), status], or an
    exception that the view does not catch, which Flask answers with
    status 500. *)
Inductive response (A : Type) : Type :=
| Ok (body : A)
| Error (error : string) (status : nat)
| Unhandled (exc : exception).
Arguments Ok {A} body.
Arguments Error {A} error status.
Arguments Unhandled {A} exc.

(** [request.files['file']]: the file name, and what
    [file.read().decode('utf-8')] does with the bytes of the file: it raises
    [UnicodeDecodeError] when they are not UTF-8, and gives the text
    otherwise, here as the document tree that [BeautifulSoup] builds
    from it. *)
Record file : Type :=
  { filename : string; read_decode : exception + Soup.node }.

(** [upload]; the response also carries [file_size], a float, which is left
    out.  [request_file] is [None] when ['file' not in request.files].  The
    decoding comes before the assignments to [app_data], so a file that does
    not decode leaves the data as they were. *)
Definition upload (list_of_set : gset string → list string)
    (request_file : option file) (st : app_data)
    : app_data * response App.index :=
  match request_file with
  | None => (st, Error "No file uploaded" 400)
  | Some f =>
      if decide (filename f = "") then (st, Error "No file selected" 400)
      else
        match read_decode f with
        | inl exc => (st, Unhandled exc)
        | inr html_content =>
            let urls := App.parse_burp_html html_content in
            let processed := App.process_urls list_of_set urls in
            ({| urls := urls; processed := Some processed |}, Ok processed)
        end
  end.

(** [/api/parameter/<param_name>] *)
Definition get_parameter_details (st : app_data) (param_name : string)
    : response (string * App.entry) :=
  match processed st with
  | None => Error "No data loaded" 400
  | Some idx =>
      match Dict.get param_name (App.params idx) with
      | None => Error "Parameter not found" 404
      | Some data => Ok (param_name, data)
      end
  end.

(** [/api/relationships/<param_name>] *)
Definition get_relationships (st : app_data) (param_name : string)
    : response (string * list relationship) :=
  if nonempty (urls st)
  then Ok (param_name, get_co_occurrence (urls st) param_name)
  else Error "No data loaded" 400.

End Routes.

(** ** Vocabulary of the specification *)

(** A strict total order given by its boolean [<]. *)
Class StrictTotal {K : Type} (lt : K → K → bool) : Prop :=
  { lt_irrefl : ∀ x, lt x x = false;
    lt_trans : ∀ x y z, lt x y = true → lt y z = true → lt x z = true;
    lt_total : ∀ x y, lt x y = true ∨ x = y ∨ lt y x = true }.

(** [x] may come before [y] in the output of [sorted]: nothing forces [y]
    in front of [x]. *)
Definition in_order {A K : Type} (lt : K → K → bool) (sort_key : A → K)
    (reverse : bool) (x y : A) : Prop :=
  stays_before lt sort_key reverse y x = false.

(** The count a [defaultdict(int)] holds for [k]. *)
Definition counted (k : string) (d : Dict.t nat) : nat :=
  default 0 (Dict.get k d).

(** The parameter instances in the order [process_urls] visits them, each
    with the URL of its record. *)
Definition instances (urls : list url_record) : list (string * parameter) :=
  urls ≫= λ url_obj, (λ p, (url url_obj, p)) <$> parameters url_obj.

(** The parameter keys of a record, with repetitions. *)
Definition param_keys (url_obj : url_record) : list string :=
  key <$> parameters url_obj.

(** The number of records whose key set holds both names. *)
Definition records_with_both (urls : list url_record)
    (target partner : string) : nat :=
  length (filter (λ u, target ∈ param_keys u ∧ partner ∈ param_keys u) urls).

(** The number of parameter instances named [partner] on the records whose
    keys hold [target]. *)
Definition instances_with (urls : list url_record)
    (target partner : string) : nat :=
  sum_list_with
    (λ u, if bool_decide (target ∈ param_keys u)
          then length (filter (λ k, k = partner) (param_keys u)) else 0)
    urls.

(** A heading whose text equals or contains ["Dynamic URLs"]. *)
Definition is_dynamic_heading (h : Soup.node) : Prop :=
  Soup.is_tag "h2" h = true
  ∧ (Soup.string_of h = Some "Dynamic URLs"
     ∨ PyStr.contains "Dynamic URLs" (Soup.get_text h) = true).

(** A list item that opens a URL record in the sibling-shape loop. *)
Definition opens_record (child : Soup.node) : Prop :=
  Soup.is_tag "li" child = true
  ∧ PyStr.startswith "http" (Soup.get_text_strip child) = true.

(** A valid model of [list(s)] for a Python set: some enumeration of the
    members, each once. *)
Definition enumerates (list_of_set : gset string → list string) : Prop :=
  ∀ s, list_of_set s ≡ₚ elements s.

(** The records of the document of the specification's example:
    [http://x/a?id=1&search=foo] and [http://x/b?id=2]. *)
Definition example_urls : list url_record :=
  [{| url := "http://x/a";
      parameters := [{| key := "id"; value := "1" |};
                     {| key := "search"; value := "foo" |}] |};
   {| url := "http://x/b";
      parameters := [{| key := "id"; value := "2" |}] |}].

(** A record that repeats a key. *)
Definition repeated_key_urls : list url_record :=
  [{| url := "http://x/b";
      parameters := [{| key := "id"; value := "2" |};
                     {| key := "id"; value := "3" |};
                     {| key := "token"; value := "t" |}] |}].

(** A record with a parameter that has no value. *)
Definition debug_urls : list url_record :=
  [{| url := "http://x/a";
      parameters := [{| key := "debug"; value := "" |}] |}].

(** A working list that starts with a nested list before any URL item. *)
Definition orphan_children : list Soup.node :=
  [Soup.Tag "ul" [Soup.Tag "li" [Soup.NavigableString "orphan=1"]]].

Definition url_children : list Soup.node :=
  [Soup.Tag "li" [Soup.NavigableString "http://x/a"];
   Soup.Tag "ul" [Soup.Tag "li" [Soup.NavigableString "id=1"]];
   Soup.Tag "li" [Soup.NavigableString "http://x/b"]].

(** A document without headings: a [body] that holds one list. *)
Definition plain_document : Soup.node :=
  Soup.Tag "[document]"
    [Soup.Tag "html" [Soup.Tag "body" [Soup.Tag "ul" url_children]]].

(** A document without headings whose list has the nested shape. *)
Definition nested_document : Soup.node :=
  Soup.Tag "[document]"
    [Soup.Tag "html"
       [Soup.Tag "body"
          [Soup.Tag "ul"
             [Soup.Tag "li"
                [Soup.NavigableString "http://x/a";
                 Soup.Tag "ul"
                   [Soup.Tag "li" [Soup.NavigableString "id=1"]]]]]]].

(** ** Vocabulary of the further properties *)

(** The instances named [k], in scan order. *)
Definition instances_of (urls : list url_record) (k : string)
    : list (string * parameter) :=
  filter (λ i, key i.2 = k) (instances urls).

(** The entry that the visits of the instances [l] of a key [k] build. *)
Definition entry_after {E : Type} (new_entry : string → E)
    (visit : string → parameter → E → E) (k : string)
    (l : list (string * parameter)) : option E :=
  match l with
  | [] => None
  | _ => Some (fold_left (λ e i, visit i.1 i.2 e) l (new_entry k))
  end.

(** The URLs of the instances named [k] whose value is filed under [v], in
    scan order. *)
Definition urls_with (urls : list url_record) (k v : string) : list string :=
  (filter (λ i, value_key i.2 = v) (instances_of urls k)).*1.

(** A dictionary with [f] applied to every value. *)
Definition dict_map {V W : Type} (f : V → W) (d : Dict.t V) : Dict.t W :=
  prod_map id f <$> d.

(** An entry of the priority program without [has_empty_values]. *)
Definition erase (e : ParaDoWat.entry) : App.entry :=
  {| App.values := ParaDoWat.values e;
     App.total_occurrences := ParaDoWat.total_occurrences e;
     App.auto_tags := ParaDoWat.auto_tags e |}.

(** [opens_record] as a test. *)
Definition is_url_item (child : Soup.node) : bool :=
  Soup.is_tag "li" child
  && PyStr.startswith "http" (Soup.get_text_strip child).

(** A parameter as the parsers emit it: key and value trimmed, no [=] in
    the key. *)
Definition clean_param (p : parameter) : Prop :=
  PyStr.strip (key p) = key p
  ∧ PyStr.strip (value p) = value p
  ∧ PyStr.has_char "=" (key p) = false.

(** The elements of [l], each once, in the order of their first occurrence. *)
Definition first_seen (l : list string) : list string :=
  fold_left (λ acc k, if decide (k ∈ acc) then acc else acc ++ [k]) l [].

(** The keys that [get_co_occurrence] counts, in the order it meets them. *)
Definition partner_stream (urls : list url_record) (target : string)
    : list string :=
  urls ≫= λ u, if bool_decide (target ∈ param_keys u)
               then filter (λ k, k ≠ target) (param_keys u) else [].

(** One record on which ["t"] has eleven partners. *)
Definition crowded_urls : list url_record :=
  [{| url := "http://x/c";
      parameters :=
        (λ k, {| key := k; value := "1" |})
          <$> ["t"; "p01"; "p02"; "p03"; "p04"; "p05"; "p06"; "p07"; "p08";
               "p09"; "p10"; "p11"] |}].

(** The records of a working list, read from its end: a nested list adds its
    parameters in front of the pending ones, a URL item takes the pending
    parameters and opens a record, anything else is skipped. *)
Definition group_step (child : Soup.node)
    (acc : list parameter * list url_record)
    : list parameter * list url_record :=
  if is_url_item child then
    ([], {| url := Soup.get_text_strip child; parameters := acc.1 |} :: acc.2)
  else if Soup.is_tag "ul" child then (read_params child [] ++ acc.1, acc.2)
  else acc.

Definition records_of (children : list Soup.node) : list url_record :=
  (foldr group_step ([], []) children).2.

(** A document with a "Dynamic URLs" section in the sibling shape. *)
Definition section_document : Soup.node :=
  Soup.Tag "[document]"
    [Soup.Tag "html"
       [Soup.Tag "body"
          [Soup.Tag "h2" [Soup.NavigableString "Dynamic URLs"];
           Soup.Tag "ul" url_children]]].

(** The state of the server of [src/Full_Files/app.py] after a sequence of
    uploads, each with the enumeration order its [set] had. *)
Definition serve
    (requests : list ((gset string → list string) * option Routes.file))
    : Routes.app_data :=
  fold_left (λ st r, (Routes.upload r.1 r.2 st).1) requests Routes.initial.

(** An upload that the route accepts. *)
Definition example_file : Routes.file :=
  {| Routes.filename := "burp.html";
     Routes.read_decode := inr plain_document |}.

(** An upload whose bytes are not UTF-8. *)
Definition binary_file : Routes.file :=
  {| Routes.filename := "burp.bin";
     Routes.read_decode := inl Routes.UnicodeDecodeError |}.




(** * Properties *)

(** ** Strings *)

#[local] Arguments String.append !_ _ / : simpl nomatch.

Lemma startswith_spec p s :
  PyStr.startswith p s = true ↔ ∃ suf, s = p +:+ suf.
Proof.
  revert s. induction p as [|a p IH]; intros s; simpl.
  - split; [eauto | done].
  - destruct s as [|b s].
    + split; [done | intros [suf Hs]; discriminate].
    + case_decide as Hab.
      * subst b. rewrite IH. split; intros [suf Hs]; exists suf.
        -- by rewrite Hs.
        -- by injection Hs.
      * split; [done | intros [suf Hs]; injection Hs; congruence].
Qed.

Lemma contains_spec p s :
  PyStr.contains p s = true ↔ ∃ pre suf, s = pre +:+ p +:+ suf.
Proof.
  induction s as [|b s IH]; simpl.
  - rewrite orb_false_r, startswith_spec. split.
    + intros [suf Hs]. by exists EmptyString, suf.
    + intros [pre [suf Hs]]. destruct pre; [by exists suf | discriminate].
  - rewrite orb_true_iff, startswith_spec, IH. split.
    + intros [[suf Hs] | [pre [suf Hs]]].
      * by exists EmptyString, suf.
      * exists (String b pre), suf. simpl. by rewrite Hs.
    + intros [pre [suf Hs]]. destruct pre as [|c pre]; simpl in Hs.
      * left. by exists suf.
      * right. injection Hs as _ Hs. by exists pre, suf.
Qed.

Lemma string_app_empty_r s : s +:+ EmptyString = s.
Proof. induction s as [|c s IH]; simpl; congruence. Qed.

Lemma contains_refl s : PyStr.contains s s = true.
Proof.
  apply contains_spec. exists EmptyString, EmptyString. simpl.
  by rewrite string_app_empty_r.
Qed.




(** ** Dictionaries *)

Section dict_facts.
Context {V : Type}.
Implicit Types (d : Dict.t V) (k : string) (v : V).

Lemma dict_mem_keys k d : Dict.mem k d = true ↔ k ∈ Dict.keys d.
Proof.
  unfold Dict.mem, Dict.keys. induction d as [|[k' v] d IH]; csimpl.
  - split; [done | by intros ?%elem_of_nil].
  - rewrite elem_of_cons. case_decide; [split; auto|].
    rewrite IH. split; [by auto | intros [?|?]; congruence].
Qed.

Lemma dict_get_None k d : Dict.get k d = None ↔ k ∉ Dict.keys d.
Proof.
  rewrite <- dict_mem_keys. unfold Dict.mem.
  destruct (Dict.get k d); naive_solver.
Qed.

Lemma dict_get_elem_of k v d : Dict.get k d = Some v → (k, v) ∈ d.
Proof.
  induction d as [|[k' v'] d IH]; csimpl; [done|].
  case_decide; intros; simplify_eq; [left | right; auto].
Qed.

Lemma dict_elem_of_get k v d :
  NoDup (Dict.keys d) → (k, v) ∈ d → Dict.get k d = Some v.
Proof.
  unfold Dict.keys. induction d as [|[k' v'] d IH]; csimpl.
  - by intros _ ?%elem_of_nil.
  - intros [Hk' Hd]%NoDup_cons [Heq | Hin]%elem_of_cons.
    + simplify_eq. by rewrite decide_True.
    + case_decide; [|by auto]. subst k'. exfalso. apply Hk'.
      apply list_elem_of_fmap. by exists (k, v).
Qed.

Lemma dict_set_fresh k v d :
  k ∉ Dict.keys d → Dict.set k v d = d ++ [(k, v)].
Proof.
  unfold Dict.keys. induction d as [|[k' v'] d IH]; csimpl; [done|].
  intros [Hne Hnin]%not_elem_of_cons. rewrite decide_False by done.
  by rewrite IH.
Qed.

Lemma dict_set_keys_mem k v d :
  k ∈ Dict.keys d → Dict.keys (Dict.set k v d) = Dict.keys d.
Proof.
  unfold Dict.keys. induction d as [|[k' v'] d IH]; csimpl.
  - by intros ?%elem_of_nil.
  - intros Hin. case_decide; [done|]. csimpl. f_equal. apply IH.
    apply elem_of_cons in Hin as [?|?]; [congruence | done].
Qed.

Lemma dict_get_set k k' v d :
  Dict.get k' (Dict.set k v d) = if decide (k = k') then Some v else Dict.get k' d.
Proof.
  induction d as [|[k0 v0] d IH]; csimpl.
  - repeat case_decide; congruence.
  - repeat (case_decide; csimpl); congruence.
Qed.

Lemma dict_alter_keys f k d : Dict.keys (Dict.alter f k d) = Dict.keys d.
Proof.
  unfold Dict.keys. induction d as [|[k' v'] d IH]; csimpl; [done|].
  case_decide; csimpl; [done | f_equal; apply IH].
Qed.

Lemma dict_get_alter f k k' d :
  Dict.get k' (Dict.alter f k d) =
  if decide (k = k') then f <$> Dict.get k' d else Dict.get k' d.
Proof.
  induction d as [|[k0 v0] d IH]; csimpl.
  - by case_decide.
  - repeat (case_decide; csimpl); congruence.
Qed.

Lemma dict_alter_app_fresh f k v d :
  k ∉ Dict.keys d → Dict.alter f k (d ++ [(k, v)]) = d ++ [(k, f v)].
Proof.
  unfold Dict.keys. induction d as [|[k' v'] d IH]; csimpl.
  - intros _. by rewrite decide_True.
  - intros [Hne Hnin]%not_elem_of_cons. rewrite decide_False by done.
    by rewrite IH.
Qed.

(** Mutating one value that grows a measure by one grows the total by one. *)
Lemma dict_alter_sum (m : V → nat) f k d :
  (∀ v, m (f v) = m v + 1) → k ∈ Dict.keys d →
  sum_list_with m (Dict.values (Dict.alter f k d))
  = sum_list_with m (Dict.values d) + 1.
Proof.
  unfold Dict.keys, Dict.values. intros Hm.
  induction d as [|[k' v'] d IH]; csimpl.
  - by intros ?%elem_of_nil.
  - intros Hin. case_decide; csimpl.
    + rewrite Hm. lia.
    + rewrite IH; [lia|]. apply elem_of_cons in Hin as [?|?]; [congruence|done].
Qed.
End dict_facts.

(** ** Tag classifier *)

Lemma get_auto_tags_loop_filter lower_name table tags :
  get_auto_tags_loop lower_name table tags
  = tags ++ (filter (λ x, any_pattern_in x.2 lower_name = true) table).*1.
Proof.
  unfold get_auto_tags_loop. revert tags.
  induction table as [|[tag patterns] table IH]; intros tags; csimpl.
  - by rewrite app_nil_r.
  - rewrite IH, filter_cons. simpl.
    destruct (any_pattern_in patterns lower_name) eqn:Hany.
    + rewrite decide_True by done. csimpl. by rewrite <- app_assoc.
    + by rewrite decide_False by done.
Qed.

Lemma get_auto_tags_filter param_name :
  get_auto_tags param_name
  = (filter (λ x, any_pattern_in x.2 (PyStr.lower param_name) = true)
            (Dict.items AUTO_TAG_PATTERNS)).*1.
Proof. unfold get_auto_tags. by rewrite get_auto_tags_loop_filter. Qed.

Lemma any_pattern_in_spec patterns lower_name :
  any_pattern_in patterns lower_name = true ↔
  ∃ pattern, pattern ∈ patterns
             ∧ ∃ pre suf, lower_name = pre +:+ pattern +:+ suf.
Proof.
  unfold any_pattern_in. rewrite existsb_exists.
  split; intros [pattern Hc]; exists pattern.
  - destruct Hc as [Hin Hc].
    split; [by apply list_elem_of_In | by apply contains_spec].
  - destruct Hc as [Hin Hc].
    split; [by apply list_elem_of_In | by apply contains_spec].
Qed.

Lemma AUTO_TAG_PATTERNS_NoDup : NoDup (Dict.keys AUTO_TAG_PATTERNS).
Proof. apply (bool_decide_unpack _). by vm_compute. Qed.

(** C8: [get_auto_tags] returns exactly the tags of which some pattern is a
    substring of the lower-cased name, in the order of [AUTO_TAG_PATTERNS]
    and without duplicates; ["id"] receives [IDOR] and ["search"] receives
    [XSS]. *)
Theorem get_auto_tags_exact (param_name : string) :
  (∀ tag, tag ∈ get_auto_tags param_name ↔
     ∃ patterns pattern,
       (tag, patterns) ∈ Dict.items AUTO_TAG_PATTERNS
       ∧ pattern ∈ patterns
       ∧ ∃ pre suf, PyStr.lower param_name = pre +:+ pattern +:+ suf)
  ∧ get_auto_tags param_name `sublist_of` Dict.keys AUTO_TAG_PATTERNS
  ∧ NoDup (get_auto_tags param_name)
  ∧ "IDOR" ∈ get_auto_tags "id"
  ∧ "XSS" ∈ get_auto_tags "search".
Proof.
  assert (Hsub : get_auto_tags param_name
                 `sublist_of` Dict.keys AUTO_TAG_PATTERNS).
  { rewrite get_auto_tags_filter.
    unfold Dict.keys, Dict.items. apply fmap_sublist, sublist_filter. }
  split_and!.
  - intros tag. rewrite get_auto_tags_filter, list_elem_of_fmap. split.
    + intros [[tag' patterns] [-> [Hany Hin]%list_elem_of_filter]].
      apply any_pattern_in_spec in Hany as [pattern [Hp Hsubstr]].
      by exists patterns, pattern.
    + intros (patterns & pattern & Hin & Hp & Hsubstr).
      exists (tag, patterns). split; [done|].
      apply list_elem_of_filter. split; [|done].
      apply any_pattern_in_spec. by exists pattern.
  - done.
  - eapply sublist_NoDup; [apply AUTO_TAG_PATTERNS_NoDup | done].
  - apply (bool_decide_unpack _). by vm_compute.
  - apply (bool_decide_unpack _). by vm_compute.
Qed.

(** ** Orders on sort keys *)

Section strict_total_facts.
Context {K : Type} (lt : K → K → bool) `{!StrictTotal lt}.

Lemma lt_asym x y : lt x y = true → lt y x = false.
Proof.
  intros Hxy. destruct (lt y x) eqn:Hyx; [|done].
  by rewrite <- (lt_irrefl (lt:=lt) x), <- (lt_trans x y x Hxy Hyx).
Qed.

Lemma lt_not_trans x y z :
  lt y x = false → lt z y = false → lt z x = false.
Proof.
  intros Hyx Hzy. destruct (lt z x) eqn:Hzx; [|done].
  destruct (lt_total (lt:=lt) x y) as [Hxy | [-> | Hyx']]; [|congruence..].
  by rewrite <- Hzy, (lt_trans z x y Hzx Hxy).
Qed.

Lemma lt_antisym x y : lt x y = false → lt y x = false → x = y.
Proof.
  intros Hxy Hyx.
  destruct (lt_total (lt:=lt) x y) as [? | [-> | ?]]; congruence.
Qed.
End strict_total_facts.

#[local] Instance nat_ltb_strict_total : StrictTotal Nat.ltb.
Proof.
  split.
  - intros x. apply Nat.ltb_irrefl.
  - intros x y z ?%Nat.ltb_lt ?%Nat.ltb_lt. apply Nat.ltb_lt. lia.
  - intros x y. rewrite !Nat.ltb_lt. lia.
Qed.

#[local] Instance Z_ltb_strict_total : StrictTotal Z.ltb.
Proof.
  split.
  - intros x. apply Z.ltb_irrefl.
  - intros x y z ?%Z.ltb_lt ?%Z.ltb_lt. apply Z.ltb_lt. lia.
  - intros x y. rewrite !Z.ltb_lt. lia.
Qed.

Lemma string_compare_refl s : String.compare s s = Eq.
Proof.
  induction s as [|c s IH]; simpl; [done|].
  unfold Ascii.compare. by rewrite N.compare_refl.
Qed.

Lemma string_compare_lt_trans s1 s2 s3 :
  String.compare s1 s2 = Lt → String.compare s2 s3 = Lt →
  String.compare s1 s3 = Lt.
Proof.
  revert s2 s3. induction s1 as [|a s1 IH]; intros [|b s2] [|c s3]; simpl;
    try done.
  destruct (Ascii.compare a b) eqn:Hab; [| |done];
    destruct (Ascii.compare b c) eqn:Hbc; try done.
  - apply Ascii.compare_eq_iff in Hab as ->.
    apply Ascii.compare_eq_iff in Hbc as ->.
    unfold Ascii.compare. rewrite N.compare_refl. apply IH.
  - apply Ascii.compare_eq_iff in Hab as ->. by rewrite Hbc.
  - apply Ascii.compare_eq_iff in Hbc as <-. by rewrite Hab.
  - unfold Ascii.compare in *.
    rewrite N.compare_lt_iff in Hab, Hbc. intros _ _.
    assert (Hac : (N_of_ascii a ?= N_of_ascii c)%N = Lt)
      by (apply N.compare_lt_iff; lia).
    by rewrite Hac.
Qed.

#[local] Instance str_lt_strict_total : StrictTotal str_lt.
Proof.
  unfold str_lt, String.ltb. split.
  - intros x. by rewrite string_compare_refl.
  - intros x y z Hxy Hyz.
    destruct (String.compare x y) eqn:Hc1; try done.
    destruct (String.compare y z) eqn:Hc2; try done.
    by rewrite (string_compare_lt_trans x y z).
  - intros x y. rewrite (String.compare_antisym y x).
    destruct (String.compare x y) eqn:Hc; simpl; auto.
    apply String.compare_eq_iff in Hc. auto.
Qed.

#[local] Instance tuple_lt_strict_total {A B} `{EqDecision A}
    (lta : A → A → bool) (ltb : B → B → bool)
    `{!StrictTotal lta, !StrictTotal ltb} : StrictTotal (tuple_lt lta ltb).
Proof.
  unfold tuple_lt. split.
  - intros [a b]. simpl. rewrite decide_True by done. apply lt_irrefl.
  - intros [a1 b1] [a2 b2] [a3 b3]. simpl.
    repeat case_decide; subst; try done.
    + apply lt_trans.
    + intros H1 H2. by rewrite (lt_asym lta _ _ H1) in H2.
    + apply lt_trans.
  - intros [a1 b1] [a2 b2]. simpl.
    repeat case_decide; subst; try done.
    + destruct (lt_total (lt:=ltb) b1 b2) as [? | [-> | ?]]; auto.
    + destruct (lt_total (lt:=lta) a1 a2) as [? | [-> | ?]]; auto.
Qed.

(** ** [sorted] *)

Section sorted_facts.
Context {A K : Type} (lt : K → K → bool) `{!StrictTotal lt}.
Context (sort_key : A → K) (reverse : bool).

#[local] Abbreviation before := (stays_before lt sort_key reverse).
#[local] Abbreviation ordered := (in_order lt sort_key reverse).

Lemma sorted_insert_Permutation x l :
  sorted_insert lt sort_key reverse x l ≡ₚ x :: l.
Proof.
  induction l as [|y l IH]; simpl; [done|].
  destruct (before y x); [|done]. rewrite IH. apply Permutation_swap.
Qed.

Lemma sorted_Permutation l : sorted lt sort_key reverse l ≡ₚ l.
Proof.
  induction l as [|x l IH]; simpl; [done|].
  by rewrite sorted_insert_Permutation, IH.
Qed.

Lemma stays_before_ordered y x : before y x = true → ordered y x.
Proof.
  unfold in_order, stays_before. destruct reverse; apply (lt_asym lt).
Qed.

Lemma in_order_trans x y z : ordered x y → ordered y z → ordered x z.
Proof.
  unfold in_order, stays_before. destruct reverse; intros Hxy Hyz.
  - by apply (lt_not_trans lt _ (sort_key y)).
  - by apply (lt_not_trans lt _ (sort_key y)).
Qed.

Lemma sorted_insert_StronglySorted x l :
  StronglySorted ordered l →
  StronglySorted ordered (sorted_insert lt sort_key reverse x l).
Proof.
  induction 1 as [|y l Hl IH Hy]; simpl.
  - repeat constructor.
  - destruct (before y x) eqn:Hyx.
    + constructor; [done|].
      rewrite sorted_insert_Permutation. constructor; [|done].
      by apply stays_before_ordered.
    + constructor; [by constructor|].
      constructor; [done|].
      eapply Forall_impl; [exact Hy|]. intros z Hz.
      by apply (in_order_trans x y z).
Qed.

Lemma sorted_StronglySorted l :
  StronglySorted ordered (sorted lt sort_key reverse l).
Proof.
  induction l as [|x l IH]; simpl; [constructor|].
  by apply sorted_insert_StronglySorted.
Qed.

(** With keys that tell the elements apart, the result does not depend on
    the order of the input. *)
Lemma sorted_unique l1 l2 :
  (∀ x y, x ∈ l1 → y ∈ l1 → sort_key x = sort_key y → x = y) →
  l1 ≡ₚ l2 →
  sorted lt sort_key reverse l1 = sorted lt sort_key reverse l2.
Proof.
  intros Hinj Hperm.
  apply (StronglySorted_unique_strong ordered);
    [|apply sorted_StronglySorted..|by rewrite !sorted_Permutation].
  intros x y Hx Hy Hxy Hyx. rewrite sorted_Permutation in Hx, Hy.
  rewrite <- Hperm in Hy. apply Hinj; [done..|].
  unfold in_order, stays_before in Hxy, Hyx.
  destruct reverse; by apply (lt_antisym lt).
Qed.
End sorted_facts.

(** ** Relationship engine *)

Lemma dict_set_NoDup {V} k (v : V) d :
  NoDup (Dict.keys d) → NoDup (Dict.keys (Dict.set k v d)).
Proof.
  intros Hd. destruct (decide (k ∈ Dict.keys d)) as [Hin | Hnin].
  - by rewrite dict_set_keys_mem.
  - rewrite dict_set_fresh by done. unfold Dict.keys in *.
    rewrite fmap_app. apply NoDup_app. split_and!; [done| |apply NoDup_singleton].
    intros k' Hk' ->%list_elem_of_singleton. done.
Qed.

Lemma counted_increment k k' d :
  counted k' (increment k d)
  = counted k' d + (if decide (k = k') then 1 else 0).
Proof.
  unfold counted, increment. rewrite dict_get_set.
  case_decide; subst; simpl; lia.
Qed.

Section co_occurrence_facts.
Variable target : string.

#[local] Abbreviation key_step := (key_step target).

Lemma key_loop_NoDup ks co :
  NoDup (Dict.keys co) → NoDup (Dict.keys (fold_left key_step ks co)).
Proof.
  revert co. induction ks as [|k ks IH]; intros co Hco; simpl; [done|].
  apply IH. unfold key_step. case_decide; [|done]. by apply dict_set_NoDup.
Qed.

Lemma key_loop_target ks co :
  Dict.get target (fold_left key_step ks co) = Dict.get target co.
Proof.
  revert co. induction ks as [|k ks IH]; intros co; simpl; [done|].
  rewrite IH. unfold key_step, increment. case_decide; [|done].
  rewrite dict_get_set. by rewrite decide_False.
Qed.

Lemma key_loop_counted k ks co :
  k ≠ target →
  counted k (fold_left key_step ks co)
  = counted k co + length (filter (λ k', k' = k) ks).
Proof.
  intros Hk. revert co.
  induction ks as [|k' ks IH]; intros co; simpl; [lia|].
  rewrite IH, filter_cons. unfold key_step.
  repeat case_decide; subst; try done;
    rewrite ?counted_increment; repeat case_decide; simpl; try done; lia.
Qed.

Lemma co_step_NoDup co u :
  NoDup (Dict.keys co) → NoDup (Dict.keys (co_step target co u)).
Proof.
  intros Hco. unfold co_step. case_bool_decide; [|done].
  by apply key_loop_NoDup.
Qed.

Lemma co_step_target co u :
  Dict.get target (co_step target co u) = Dict.get target co.
Proof.
  unfold co_step. case_bool_decide; [|done]. apply key_loop_target.
Qed.

Lemma co_step_counted k co u :
  k ≠ target →
  counted k (co_step target co u)
  = counted k co + instances_with [u] target k.
Proof.
  intros Hk. unfold co_step, instances_with. simpl. fold (param_keys u).
  case_bool_decide; [|lia]. rewrite (key_loop_counted k) by done. lia.
Qed.

Lemma co_loop_inv urls co :
  let co' := fold_left (co_step target) urls co in
  (NoDup (Dict.keys co) → NoDup (Dict.keys co'))
  ∧ Dict.get target co' = Dict.get target co
  ∧ ∀ k, k ≠ target →
         counted k co' = counted k co + instances_with urls target k.
Proof.
  revert co. induction urls as [|u urls IH]; intros co; simpl.
  - split_and!; [done..|]. intros k _. unfold instances_with. simpl. lia.
  - destruct (IH (co_step target co u)) as (IH1 & IH2 & IH3).
    split_and!.
    + intros Hco. by apply IH1, co_step_NoDup.
    + by rewrite IH2, co_step_target.
    + intros k Hk. rewrite IH3, co_step_counted by done.
      unfold instances_with. simpl. lia.
Qed.

Lemma co_occurrence_counts_item urls k n :
  (k, n) ∈ Dict.items (co_occurrence_counts urls target) →
  k ≠ target ∧ n = instances_with urls target k.
Proof.
  unfold co_occurrence_counts, Dict.items. intros Hin.
  destruct (co_loop_inv urls Dict.empty) as (Hnd & Htarget & Hcount).
  apply dict_elem_of_get in Hin; [|apply Hnd; constructor].
  assert (Hk : k ≠ target).
  { intros ->. rewrite Htarget in Hin. done. }
  split; [done|]. specialize (Hcount k Hk).
  unfold counted in Hcount. rewrite Hin in Hcount. simpl in Hcount. lia.
Qed.
End co_occurrence_facts.

Lemma get_co_occurrence_item urls target r :
  r ∈ get_co_occurrence urls target →
  (param r, count r) ∈ Dict.items (co_occurrence_counts urls target).
Proof.
  unfold get_co_occurrence.
  intros [[k n] [-> Hin]]%list_elem_of_fmap. simpl.
  apply subseteq_take in Hin. by rewrite sorted_Permutation in Hin.
Qed.

Lemma instances_with_NoDup urls target partner :
  (∀ u, u ∈ urls → NoDup (param_keys u)) →
  instances_with urls target partner = records_with_both urls target partner.
Proof.
  unfold instances_with, records_with_both.
  induction urls as [|u urls IH]; intros Hnd; [done|].
  simpl. rewrite filter_cons.
  rewrite IH by (intros u' Hu'; apply Hnd; by right).
  assert (Hone : length (filter (λ k, k = partner) (param_keys u))
                 = if decide (partner ∈ param_keys u) then 1 else 0).
  { specialize (Hnd u (list_elem_of_here _ _)).
    induction Hnd as [|k ks Hk Hks IHks]; [done|].
    rewrite filter_cons. destruct (decide (k = partner)) as [->|Hne].
    - rewrite decide_True by left. simpl. f_equal.
      rewrite decide_False in IHks by done. done.
    - rewrite IHks. destruct (decide (partner ∈ ks)) as [Hin|Hnin].
      + by rewrite decide_True by (by right).
      + rewrite decide_False; [done|]. by intros [->|?]%elem_of_cons. }
  rewrite Hone. destruct (decide (target ∈ param_keys u)) as [Ht|Ht].
  - rewrite bool_decide_eq_true_2 by done.
    destruct (decide (partner ∈ param_keys u)) as [Hp|Hp].
    + by rewrite decide_True by done.
    + by rewrite decide_False by (by intros [_ ?]).
  - rewrite bool_decide_eq_false_2 by done.
    by rewrite decide_False by (by intros [? _]).
Qed.

(** C1, as amended: the count reported for a partner is the number of
    parameter instances that carry the partner's key on the records whose
    parameter list has the target, so a key that a record repeats is counted
    once per repetition; when no record repeats a key, this is the number of
    records that hold both names. *)
Theorem get_co_occurrence_count urls target r :
  r ∈ get_co_occurrence urls target →
  count r = instances_with urls target (param r)
  ∧ ((∀ u, u ∈ urls → NoDup (param_keys u)) →
     count r = records_with_both urls target (param r)).
Proof.
  intros Hr%get_co_occurrence_item.
  apply co_occurrence_counts_item in Hr as [_ Hr].
  split; [done|]. intros Hnd. by rewrite <- instances_with_NoDup.
Qed.

Lemma get_co_occurrence_count_witness :
  count {| param := "id"; count := 2; auto_tags := ["IDOR"; "SQLi"] |}
  = instances_with repeated_key_urls "token" "id"
  ∧ count {| param := "search"; count := 1; auto_tags := ["XSS"] |}
    = records_with_both example_urls "id" "search".
Proof.
  split.
  - refine (proj1 (get_co_occurrence_count repeated_key_urls "token"
      {| param := "id"; count := 2; auto_tags := ["IDOR"; "SQLi"] |} _)).
    vm_compute. left.
  - refine (proj2 (get_co_occurrence_count example_urls "id"
      {| param := "search"; count := 1; auto_tags := ["XSS"] |} _) _).
    + vm_compute. left.
    + intros u Hu. apply (bool_decide_unpack _).
      revert u Hu. apply Forall_forall. by repeat constructor.
Defined.

(** C1, as stated, fails: on the one record [id=2, id=3, token=t] the count
    reported for the partner ["id"] of ["token"] is 2, while one record holds
    both names. *)
Lemma repeated_key_counted_twice :
  ¬ (∀ urls target r,
       r ∈ get_co_occurrence urls target →
       count r = records_with_both urls target (param r)).
Proof.
  intros H.
  specialize (H repeated_key_urls "token"
                {| param := "id"; count := 2; auto_tags := ["IDOR"; "SQLi"] |}).
  assert (Hc : 2 = 1); [|discriminate Hc].
  apply H. vm_compute. left.
Qed.

Lemma StronglySorted_take {A} (R : relation A) n l :
  StronglySorted R l → StronglySorted R (take n l).
Proof.
  rewrite <- (take_drop n l) at 1. apply StronglySorted_app_1_l.
Qed.

(** C4: the result of [get_co_occurrence] never holds the target, has at
    most 10 entries, is sorted by non-increasing count, and is empty when
    the target is a key of no record. *)
Theorem get_co_occurrence_shape urls target :
  (target ∉ param <$> get_co_occurrence urls target)
  ∧ length (get_co_occurrence urls target) ≤ 10
  ∧ StronglySorted (λ r1 r2, count r2 ≤ count r1)
                   (get_co_occurrence urls target)
  ∧ ((∀ u, u ∈ urls → target ∉ param_keys u) →
     get_co_occurrence urls target = []).
Proof.
  split_and!.
  - intros [r [-> Hr]]%list_elem_of_fmap.
    apply get_co_occurrence_item, co_occurrence_counts_item in Hr as [Hr _].
    done.
  - unfold get_co_occurrence. rewrite length_fmap, length_take. lia.
  - unfold get_co_occurrence.
    eapply StronglySorted_fmap;
      [|apply StronglySorted_take, (sorted_StronglySorted Nat.ltb snd true)].
    intros x y Hxy. unfold in_order, stays_before in Hxy. simpl in *.
    apply Nat.ltb_ge in Hxy. done.
  - intros Habsent. unfold get_co_occurrence, co_occurrence_counts.
    assert (Hco : ∀ co, fold_left (co_step target) urls co = co).
    { induction urls as [|u urls IH]; intros co; simpl; [done|].
      unfold co_step at 2. fold (param_keys u).
      rewrite bool_decide_eq_false_2 by (apply Habsent; left).
      apply IH. intros u' Hu'. apply Habsent. by right. }
    by rewrite Hco.
Qed.

Lemma get_co_occurrence_shape_witness :
  get_co_occurrence
    [{| url := "http://x/a";
        parameters := [{| key := "id"; value := "1" |}] |}] "token" = [].
Proof.
  apply (get_co_occurrence_shape
    [{| url := "http://x/a";
        parameters := [{| key := "id"; value := "1" |}] |}] "token").
  intros u ->%list_elem_of_singleton. vm_compute.
  intros Hin. inversion Hin as [|? ? ? Hin']; subst. inversion Hin'.
Defined.

(** ** Aggregator: the scan *)

Lemma add_url_cases v u vals :
  add_url v u vals
  = if Dict.mem v vals then Dict.alter (λ l, l ++ [u]) v vals
    else vals ++ [(v, [u])].
Proof.
  unfold add_url. destruct (Dict.mem v vals) eqn:Hmem; [done|].
  assert (Hv : v ∉ Dict.keys vals).
  { rewrite <- dict_mem_keys. by rewrite Hmem. }
  by rewrite dict_set_fresh, dict_alter_app_fresh.
Qed.

Lemma add_url_sum v u vals :
  sum_list_with length (Dict.values (add_url v u vals))
  = sum_list_with length (Dict.values vals) + 1.
Proof.
  rewrite add_url_cases. destruct (Dict.mem v vals) eqn:Hmem.
  - apply dict_alter_sum; [|by apply dict_mem_keys].
    intros l. rewrite length_app. simpl. lia.
  - unfold Dict.values. by rewrite fmap_app, sum_list_with_app.
Qed.



Section scan_facts.
Context {E : Type} (new_entry : string → E).
Context (visit : string → parameter → E → E).

#[local] Abbreviation step := (param_step new_entry visit).

Lemma param_step_cases u param_data all_params p :
  step u (param_data, all_params) p
  = (if Dict.mem (key p) param_data
     then Dict.alter (visit u p) (key p) param_data
     else param_data ++ [(key p, visit u p (new_entry (key p)))],
     {[key p]} ∪ all_params).
Proof.
  unfold param_step. f_equal.
  destruct (Dict.mem (key p) param_data) eqn:Hmem; [done|].
  assert (Hk : key p ∉ Dict.keys param_data).
  { rewrite <- dict_mem_keys. by rewrite Hmem. }
  by rewrite dict_set_fresh, dict_alter_app_fresh.
Qed.

(** The two nested loops visit the instances one after the other. *)
Lemma scan_with_instances urls :
  scan_with new_entry visit urls
  = fold_left (λ st i, step i.1 st i.2) (instances urls) (Dict.empty, ∅).
Proof.
  unfold scan_with, instances.
  generalize (@Dict.empty E, (∅ : gset string)).
  induction urls as [|u urls IH]; intros st; csimpl; [done|].
  rewrite fold_left_app, IH. f_equal.
  generalize (parameters u) st. clear.
  intros ps. induction ps as [|p ps IH]; intros st; csimpl; [done|].
  by rewrite IH.
Qed.

Lemma scan_with_snoc urls st i :
  fold_left (λ st i, step i.1 st i.2) (urls ++ [i]) st
  = step i.1 (fold_left (λ st i, step i.1 st i.2) urls st) i.2.
Proof. by rewrite fold_left_app. Qed.

Lemma length_instances urls :
  length (instances urls) = sum_list_with (length ∘ parameters) urls.
Proof.
  unfold instances. induction urls as [|u urls IH]; csimpl; [done|].
  by rewrite length_app, length_fmap, IH.
Qed.

Lemma elem_of_instances urls u p :
  (u, p) ∈ instances urls ↔
  ∃ url_obj, url_obj ∈ urls ∧ url url_obj = u ∧ p ∈ parameters url_obj.
Proof.
  unfold instances. rewrite list_elem_of_bind. split.
  - intros (url_obj & [p' [Heq Hp]]%list_elem_of_fmap & Hin).
    simplify_eq. by exists url_obj.
  - intros (url_obj & Hin & <- & Hp). exists url_obj. split; [|done].
    apply list_elem_of_fmap. by exists p.
Qed.

(** What the scan leaves behind, by induction on the visited instances. *)
Lemma scan_with_inv urls :
  let st := scan_with new_entry visit urls in
  NoDup (Dict.keys st.1)
  ∧ (∀ k, k ∈ st.2 ↔ k ∈ Dict.keys st.1)
  ∧ (∀ k, k ∈ Dict.keys st.1 ↔ ∃ i, i ∈ instances urls ∧ key i.2 = k).
Proof.
  simpl. rewrite scan_with_instances.
  induction (instances urls) as [|[u p] insts IH] using rev_ind.
  - simpl. split_and!; [constructor| |].
    { intros k. split; [by intros ?%elem_of_empty | by intros ?%elem_of_nil]. }
    intros k. split; [by intros ?%elem_of_nil|].
    by intros [i [?%elem_of_nil _]].
  - rewrite scan_with_snoc.
    destruct (fold_left _ insts _) as [pd S].
    rewrite param_step_cases. simpl in *.
    destruct IH as (Hnd & HS & Hkeys).
    assert (Hk : Dict.keys (if Dict.mem (key p) pd
                  then Dict.alter (visit u p) (key p) pd
                  else pd ++ [(key p, visit u p (new_entry (key p)))])
                 ≡ₚ (if Dict.mem (key p) pd then [] else [key p])
                    ++ Dict.keys pd).
    { destruct (Dict.mem (key p) pd); [by rewrite dict_alter_keys|].
      unfold Dict.keys. rewrite fmap_app. simpl. by rewrite Permutation_app_comm. }
    split_and!.
    + rewrite Hk. destruct (Dict.mem (key p) pd) eqn:Hmem; [done|].
      simpl. constructor; [|done]. rewrite <- dict_mem_keys. by rewrite Hmem.
    + intros k. rewrite Hk, elem_of_union, elem_of_singleton, HS.
      destruct (Dict.mem (key p) pd) eqn:Hmem; simpl.
      * apply dict_mem_keys in Hmem. split; [by intros [->|?]|auto].
      * by rewrite elem_of_cons.
    + intros k. rewrite Hk, elem_of_app, Hkeys. split.
      * intros [Hin | (i & Hi & Hik)].
        -- exists (u, p). split; [apply elem_of_app; right; left|].
           destruct (Dict.mem (key p) pd); [by apply elem_of_nil in Hin|].
           by apply list_elem_of_singleton in Hin.
        -- exists i. split; [apply elem_of_app; by left|done].
      * intros (i & [Hi | ->%list_elem_of_singleton]%elem_of_app & Hik).
        -- right. by exists i.
        -- simpl in Hik. subst k.
           destruct (Dict.mem (key p) pd) eqn:Hmem.
           ++ right. by apply Hkeys, dict_mem_keys.
           ++ left. left.
Qed.

(** A property that new entries have and visits keep holds of every entry. *)
Lemma scan_with_Forall (P : E → Prop) urls :
  (∀ k, P (new_entry k)) → (∀ u p e, P e → P (visit u p e)) →
  Forall P (Dict.values (scan_with new_entry visit urls).1).
Proof.
  intros Hnew Hvisit. rewrite scan_with_instances.
  induction (instances urls) as [|[u p] insts IH] using rev_ind;
    [by constructor|].
  rewrite scan_with_snoc.
  destruct (fold_left _ insts _) as [pd S].
  rewrite param_step_cases. simpl in *.
  destruct (Dict.mem (key p) pd).
  - clear -IH Hvisit. unfold Dict.values in *.
    induction pd as [|[k e] pd IHpd]; csimpl; [done|].
    apply Forall_cons in IH as [He Hpd].
    case_decide; csimpl; constructor; auto.
  - unfold Dict.values in *. rewrite fmap_app. apply Forall_app.
    split; [done|]. constructor; [simpl; auto|constructor].
Qed.

(** A measure that starts at 0 and that every visit grows by one adds up to
    the number of instances. *)
Lemma scan_with_sum (m : E → nat) urls :
  (∀ k, m (new_entry k) = 0) → (∀ u p e, m (visit u p e) = m e + 1) →
  sum_list_with m (Dict.values (scan_with new_entry visit urls).1)
  = sum_list_with (length ∘ parameters) urls.
Proof.
  intros Hnew Hvisit. rewrite <- length_instances, scan_with_instances.
  induction (instances urls) as [|[u p] insts IH] using rev_ind; [done|].
  rewrite scan_with_snoc, length_app.
  destruct (fold_left _ insts _) as [pd S].
  rewrite param_step_cases. simpl in *.
  destruct (Dict.mem (key p) pd) eqn:Hmem.
  - rewrite dict_alter_sum; [lia|auto|by apply dict_mem_keys].
  - unfold Dict.values in *. rewrite fmap_app, sum_list_with_app. simpl.
    rewrite Hvisit, Hnew. lia.
Qed.

End scan_facts.

(** ** Aggregator: the index *)

Lemma App_process_urls_eq los urls :
  App.process_urls los urls
  = {| App.params := (App.scan urls).1;
       App.all_param_names :=
         sorted App.key_lt (App.sort_key (App.scan urls).1) false
                (los (App.scan urls).2);
       App.total_urls := length urls;
       App.total_params := size (App.scan urls).2 |}.
Proof. unfold App.process_urls. by destruct (App.scan urls). Qed.

Lemma ParaDoWat_process_urls_eq los urls :
  ParaDoWat.process_urls los urls
  = {| ParaDoWat.params := (ParaDoWat.scan urls).1;
       ParaDoWat.all_param_names :=
         sorted ParaDoWat.key_lt (ParaDoWat.sort_key (ParaDoWat.scan urls).1)
                false (los (ParaDoWat.scan urls).2);
       ParaDoWat.total_urls := length urls;
       ParaDoWat.total_params := size (ParaDoWat.scan urls).2 |}.
Proof. unfold ParaDoWat.process_urls. by destruct (ParaDoWat.scan urls). Qed.

(** C5: in every entry the lengths of the URL lists of [values] add up to
    [total_occurrences], and the [total_occurrences] of all entries add up
    to the number of parameter instances of the input records; in the simple
    and in the priority program. *)
Theorem process_urls_counting_identities los (urls : list url_record) :
  (Forall (λ e, sum_list_with length (Dict.values (App.values e))
                = App.total_occurrences e)
          (Dict.values (App.params (App.process_urls los urls)))
   ∧ sum_list_with App.total_occurrences
       (Dict.values (App.params (App.process_urls los urls)))
     = sum_list_with (length ∘ parameters) urls)
  ∧ (Forall (λ e, sum_list_with length (Dict.values (ParaDoWat.values e))
                  = ParaDoWat.total_occurrences e)
            (Dict.values (ParaDoWat.params (ParaDoWat.process_urls los urls)))
     ∧ sum_list_with ParaDoWat.total_occurrences
         (Dict.values (ParaDoWat.params (ParaDoWat.process_urls los urls)))
       = sum_list_with (length ∘ parameters) urls).
Proof.
  rewrite App_process_urls_eq, ParaDoWat_process_urls_eq. simpl.
  split_and!.
  - apply scan_with_Forall; [done|].
    intros u p e He. simpl. rewrite add_url_sum. lia.
  - by apply scan_with_sum.
  - apply scan_with_Forall; [done|].
    intros u p e He. simpl. rewrite add_url_sum. lia.
  - by apply scan_with_sum.
Qed.

Lemma StronglySorted_lookup_lt {A} (R : relation A) l i j a b :
  StronglySorted R l → i < j → l !! i = Some a → l !! j = Some b → R a b.
Proof.
  intros Hl. revert i j. induction Hl as [|x l Hl IH Hx]; intros i j Hij Hi Hj.
  - done.
  - destruct j as [|j]; [lia|]. destruct i as [|i]; simpl in *.
    + simplify_eq. eapply Forall_forall; [exact Hx|].
      by eapply list_elem_of_lookup_2.
    + apply (IH i j); [lia|done..].
Qed.

Section index_order.
Context {E K : Type} (lt : K → K → bool) `{!StrictTotal lt}.
Context (new_entry : string → E) (visit : string → parameter → E → E).
Context (sort_key : Dict.t E → string → K).
Hypothesis sort_key_inj :
  ∀ param_data x y, sort_key param_data x = sort_key param_data y → x = y.
Context (los : gset string → list string) (Hlos : enumerates los).
Context (urls : list url_record).

#[local] Abbreviation result := (scan_with new_entry visit urls).
#[local] Abbreviation names :=
  (sorted lt (sort_key result.1) false (los result.2)).

Lemma names_Permutation : names ≡ₚ Dict.keys result.1.
Proof.
  destruct (scan_with_inv new_entry visit urls) as (Hnd & HS & _).
  rewrite sorted_Permutation, (Hlos _).
  apply NoDup_Permutation; [apply NoDup_elements|done|].
  intros k. by rewrite elem_of_elements.
Qed.

Lemma names_NoDup : NoDup names.
Proof.
  rewrite names_Permutation. apply (scan_with_inv new_entry visit urls).
Qed.

(** Two names of the output are in strictly increasing key order. *)
Lemma names_increasing i j a b :
  i < j → names !! i = Some a → names !! j = Some b →
  (∃ ea, Dict.get a result.1 = Some ea)
  ∧ (∃ eb, Dict.get b result.1 = Some eb)
  ∧ lt (sort_key result.1 a) (sort_key result.1 b) = true.
Proof.
  intros Hij Ha Hb.
  assert (Hin : ∀ x, x ∈ names → ∃ e, Dict.get x result.1 = Some e).
  { intros x. rewrite names_Permutation, <- dict_mem_keys. unfold Dict.mem.
    destruct (Dict.get x result.1); [eauto|done]. }
  split_and!; [by eapply Hin, list_elem_of_lookup_2..|].
  pose proof (StronglySorted_lookup_lt _ _ i j a b
                (sorted_StronglySorted lt (sort_key result.1) false _)
                Hij Ha Hb) as Hord.
  unfold in_order, stays_before in Hord.
  destruct (lt_total (lt:=lt) (sort_key result.1 a) (sort_key result.1 b))
    as [Hlt | [Heq | Hgt]]; [done| |congruence].
  apply sort_key_inj in Heq. subst b.
  pose proof (NoDup_lookup _ i j a names_NoDup Ha Hb). lia.
Qed.
End index_order.

Lemma App_sort_key_inj param_data x y :
  App.sort_key param_data x = App.sort_key param_data y → x = y.
Proof.
  unfold App.sort_key.
  destruct (Dict.get x param_data), (Dict.get y param_data); congruence.
Qed.

Lemma ParaDoWat_sort_key_inj param_data x y :
  ParaDoWat.sort_key param_data x = ParaDoWat.sort_key param_data y → x = y.
Proof.
  unfold ParaDoWat.sort_key.
  destruct (Dict.get x param_data), (Dict.get y param_data); congruence.
Qed.

(** C3: [all_param_names] is a permutation of the keys of [params] without
    duplicates; an earlier name never has fewer [total_occurrences] than a
    later one, and when the two tie on every other criterion of the program
    (the simple program has none, the priority program has the number of tags
    and [has_values]) the earlier name is the smaller string. *)
Theorem all_param_names_sorted los (urls : list url_record) :
  enumerates los →
  (let idx := App.process_urls los urls in
   App.all_param_names idx ≡ₚ Dict.keys (App.params idx)
   ∧ NoDup (App.all_param_names idx)
   ∧ ∀ i j a b,
       i < j →
       App.all_param_names idx !! i = Some a →
       App.all_param_names idx !! j = Some b →
       ∃ ea eb,
         Dict.get a (App.params idx) = Some ea
         ∧ Dict.get b (App.params idx) = Some eb
         ∧ App.total_occurrences eb ≤ App.total_occurrences ea
         ∧ (App.total_occurrences eb = App.total_occurrences ea →
            str_lt a b = true))
  ∧ (let idx := ParaDoWat.process_urls los urls in
     ParaDoWat.all_param_names idx ≡ₚ Dict.keys (ParaDoWat.params idx)
     ∧ NoDup (ParaDoWat.all_param_names idx)
     ∧ ∀ i j a b,
         i < j →
         ParaDoWat.all_param_names idx !! i = Some a →
         ParaDoWat.all_param_names idx !! j = Some b →
         ∃ ea eb,
           Dict.get a (ParaDoWat.params idx) = Some ea
           ∧ Dict.get b (ParaDoWat.params idx) = Some eb
           ∧ ParaDoWat.total_occurrences eb ≤ ParaDoWat.total_occurrences ea
           ∧ (ParaDoWat.total_occurrences eb = ParaDoWat.total_occurrences ea →
              length (ParaDoWat.auto_tags eb) = length (ParaDoWat.auto_tags ea) →
              ParaDoWat.has_values eb = ParaDoWat.has_values ea →
              str_lt a b = true)).
Proof.
  intros Hlos. split; simpl.
  - rewrite App_process_urls_eq. simpl. split_and!.
    + by apply names_Permutation.
    + by apply (names_NoDup App.key_lt).
    + intros i j a b Hij Ha Hb.
      destruct (names_increasing App.key_lt _ _ _ App_sort_key_inj los Hlos
                  urls i j a b Hij Ha Hb) as ([ea Hea] & [eb Heb] & Hlt).
      exists ea, eb. split_and!; [done..| |].
      all: unfold App.scan in *; unfold App.sort_key in Hlt;
        rewrite Hea, Heb in Hlt;
        unfold App.key_lt, tuple_lt in Hlt; simpl in Hlt;
        case_decide; [intros; try lia|apply Z.ltb_lt in Hlt; lia].
      done.
  - rewrite ParaDoWat_process_urls_eq. simpl. split_and!.
    + by apply names_Permutation.
    + by apply (names_NoDup ParaDoWat.key_lt).
    + intros i j a b Hij Ha Hb.
      destruct (names_increasing ParaDoWat.key_lt _ _ _
                  ParaDoWat_sort_key_inj los Hlos
                  urls i j a b Hij Ha Hb) as ([ea Hea] & [eb Heb] & Hlt).
      exists ea, eb. split_and!; [done..| |].
      all: unfold ParaDoWat.scan in *; unfold ParaDoWat.sort_key in Hlt;
        rewrite Hea, Heb in Hlt;
        unfold ParaDoWat.key_lt, tuple_lt in Hlt; simpl in Hlt;
        case_decide; [|apply Z.ltb_lt in Hlt; lia].
      * lia.
      * intros _ Htags Hvals. rewrite Htags, Hvals in Hlt.
        rewrite !decide_True in Hlt by done. done.
Qed.

Lemma all_param_names_sorted_witness :
  App.all_param_names (App.process_urls elements example_urls)
  ≡ₚ Dict.keys (App.params (App.process_urls elements example_urls))
  ∧ ∃ ea eb,
      Dict.get "id" (App.params (App.process_urls elements example_urls))
      = Some ea
      ∧ Dict.get "search" (App.params (App.process_urls elements example_urls))
        = Some eb
      ∧ App.total_occurrences eb ≤ App.total_occurrences ea
      ∧ (App.total_occurrences eb = App.total_occurrences ea →
         str_lt "id" "search" = true).
Proof.
  assert (Hlos : enumerates elements) by (intros s; reflexivity).
  destruct (all_param_names_sorted elements example_urls Hlos)
    as [(Hperm & _ & Hord) _].
  split; [exact Hperm|].
  apply (Hord 0 1 "id" "search"); [lia|by vm_compute..].
Defined.

(** C9: [process_urls] does not depend on the order in which the run
    enumerates the set [all_params]: two runs on equal record sequences give
    the same index, [all_param_names] included, and so do two loads of the
    same document. *)
Theorem process_urls_deterministic los1 los2 (urls1 urls2 : list url_record)
    (soup : Soup.node) :
  enumerates los1 → enumerates los2 → urls1 = urls2 →
  App.process_urls los1 urls1 = App.process_urls los2 urls2
  ∧ ParaDoWat.process_urls los1 urls1 = ParaDoWat.process_urls los2 urls2
  ∧ App.process_urls los1 (App.parse_burp_html soup)
    = App.process_urls los2 (App.parse_burp_html soup)
  ∧ ParaDoWat.process_urls los1 (ParaDoWat.parse_burp_html soup)
    = ParaDoWat.process_urls los2 (ParaDoWat.parse_burp_html soup).
Proof.
  intros Hlos1 Hlos2 <-.
  assert (HA : ∀ urls, App.process_urls los1 urls = App.process_urls los2 urls).
  { intros urls. rewrite !App_process_urls_eq. f_equal.
    apply (sorted_unique App.key_lt).
    - intros x y _ _. apply App_sort_key_inj.
    - by rewrite (Hlos1 _), (Hlos2 _). }
  assert (HP : ∀ urls, ParaDoWat.process_urls los1 urls
                       = ParaDoWat.process_urls los2 urls).
  { intros urls. rewrite !ParaDoWat_process_urls_eq. f_equal.
    apply (sorted_unique ParaDoWat.key_lt).
    - intros x y _ _. apply ParaDoWat_sort_key_inj.
    - by rewrite (Hlos1 _), (Hlos2 _). }
  auto.
Qed.

Lemma process_urls_deterministic_witness :
  App.process_urls elements example_urls
  = App.process_urls (reverse ∘ elements) example_urls.
Proof.
  assert (Hlos1 : enumerates elements) by (intros s; reflexivity).
  assert (Hlos2 : enumerates (reverse ∘ elements))
    by (intros s; apply reverse_Permutation).
  exact (proj1 (process_urls_deterministic elements (reverse ∘ elements)
                  example_urls example_urls (Soup.Tag "[document]" [])
                  Hlos1 Hlos2 eq_refl)).
Defined.

(** ** Document parser: the sibling-shape loop *)

#[local] Arguments PyStr.startswith : simpl never.
#[local] Arguments Soup.get_text_strip : simpl never.

Lemma with_parameters_Forall urls :
  Forall (λ u, parameters u ≠ []) (with_parameters urls).
Proof.
  apply Forall_forall. intros u [Hu _]%list_elem_of_filter.
  by destruct (parameters u).
Qed.

Lemma li_step_Forall urls li :
  Forall (λ u, parameters u ≠ []) urls →
  Forall (λ u, parameters u ≠ []) (ParaDoWat5.li_step urls li).
Proof.
  intros Hurls. unfold ParaDoWat5.li_step.
  destruct (match Soup.find_text_child li with
            | Some t => _ | None => None end) as [url_text|]; [|done].
  destruct (_ || _); [done|].
  destruct (match Soup.find "ul" li with
            | Some nested_ul => _ | None => [] end) as [|p ps] eqn:Hps;
    [done|].
  simpl. apply Forall_app. split; [done|]. by repeat constructor.
Qed.

(** C6: every record that a parser returns has at least one parameter; in
    the three sibling-shape programs and in the nested-shape program. *)
Theorem parse_burp_html_parameters_nonempty (soup : Soup.node) :
  Forall (λ u, parameters u ≠ []) (App.parse_burp_html soup)
  ∧ Forall (λ u, parameters u ≠ []) (ParaDoWat.parse_burp_html soup)
  ∧ match Streamlit.parse_burp_html soup with
    | inr urls => Forall (λ u, parameters u ≠ []) urls
    | inl _ => True
    end
  ∧ Forall (λ u, parameters u ≠ []) (ParaDoWat5.parse_burp_html soup).
Proof.
  split_and!.
  - unfold App.parse_burp_html.
    destruct (match Soup.find_with_string _ _ soup with
              | Some _ => _ | None => _ end);
      [apply with_parameters_Forall | constructor].
  - unfold ParaDoWat.parse_burp_html.
    destruct (Soup.find "ul" soup);
      [apply with_parameters_Forall | constructor].
  - unfold Streamlit.parse_burp_html.
    destruct (Soup.find "body" soup) as [body|]; [|done].
    destruct (Soup.find "ul" body);
      [apply with_parameters_Forall | constructor].
  - unfold ParaDoWat5.parse_burp_html.
    destruct (Soup.find_with_text _ _ soup) as [[h next_siblings]|];
      [|constructor].
    destruct (Soup.find_next_sibling _ next_siblings) as [main_ul|];
      [|constructor].
    generalize (Soup.find_all_children "li" main_ul).
    assert (Hnil : Forall (λ u, parameters u ≠ []) []) by constructor.
    revert Hnil. generalize (@nil url_record).
    intros urls Hurls lis. revert urls Hurls.
    induction lis as [|li lis IH]; intros urls Hurls; simpl; [done|].
    by apply IH, li_step_Forall.
Qed.

Lemma loop_step_idle st child :
  current_url st = None → ¬ opens_record child → loop_step st child = st.
Proof.
  intros Hcur Hopen. unfold loop_step, opens_record in *.
  destruct (Soup.is_tag "li" child) eqn:Hli.
  - destruct (PyStr.startswith _ _); [|done]. exfalso. by apply Hopen.
  - rewrite Hcur. by destruct (Soup.is_tag "ul" child).
Qed.

Lemma sibling_loop_idle pre :
  (∀ c, c ∈ pre → ¬ opens_record c) →
  fold_left loop_step pre loop_init = loop_init.
Proof.
  induction pre as [|c pre IH]; intros Hpre; simpl; [done|].
  rewrite loop_step_idle; [|done|apply Hpre; left].
  apply IH. intros c' Hc'. apply Hpre. by right.
Qed.

(** The reference [current_url] is the last element of [urls]. *)
Lemma sibling_loop_current children :
  let st := sibling_loop children in
  match current_url st with
  | Some i => i + 1 = length (urls st)
  | None => urls st = []
  end.
Proof.
  unfold sibling_loop.
  induction children as [|c cs IH] using rev_ind; simpl; [done|].
  rewrite fold_left_app. simpl.
  destruct (fold_left loop_step cs loop_init) as [us cur]. simpl in *.
  unfold loop_step. simpl.
  destruct (Soup.is_tag "li" c).
  - destruct (PyStr.startswith _ _); simpl; [|done].
    rewrite length_app. simpl. lia.
  - destruct (Soup.is_tag "ul" c); [|done].
    destruct cur as [i|]; simpl; [|done]. by rewrite length_alter.
Qed.

Lemma alter_extend_record_url ul i (us : list url_record) :
  url <$> alter (extend_record ul) i us = url <$> us.
Proof.
  revert i. induction us as [|u us IH]; intros [|i]; csimpl; try done.
  by rewrite IH.
Qed.

(** C10: in the sibling-shape loop, the children that come before the first
    list item whose text starts with [http], nested lists included, leave no
    trace in the result; a nested list never opens or renames a record, its
    lines go to the last record of [urls], the most recently opened one; and
    a step of the loop leaves every other record as it was. *)
Theorem sibling_loop_orphan_lists (pre rest children : list Soup.node)
    (child : Soup.node) :
  ((∀ c, c ∈ pre → ¬ opens_record c) →
   sibling_loop (pre ++ rest) = sibling_loop rest)
  ∧ (Soup.is_tag "ul" child = true →
     url <$> urls (loop_step (sibling_loop children) child)
     = url <$> urls (sibling_loop children))
  ∧ (Soup.is_tag "ul" child = true →
     urls (loop_step (sibling_loop children) child)
     = alter (extend_record child) (length (urls (sibling_loop children)) - 1)
             (urls (sibling_loop children)))
  ∧ (∀ i, i + 1 < length (urls (sibling_loop children)) →
          urls (loop_step (sibling_loop children) child) !! i
          = urls (sibling_loop children) !! i).
Proof.
  assert (Hli : Soup.is_tag "ul" child = true → Soup.is_tag "li" child = false).
  { destruct child as [| |nm cs]; try done. simpl.
    intros Hul%bool_decide_eq_true. subst nm. done. }
  split_and!.
  - intros Hpre. unfold sibling_loop.
    by rewrite fold_left_app, sibling_loop_idle.
  - intros Hul. unfold loop_step. rewrite (Hli Hul), Hul.
    destruct (current_url _); [|done]. simpl.
    apply alter_extend_record_url.
  - intros Hul. pose proof (sibling_loop_current children) as Hcur.
    simpl in Hcur. unfold loop_step. rewrite (Hli Hul), Hul.
    destruct (current_url _) as [j|]; simpl.
    + f_equal. lia.
    + by rewrite Hcur.
  - intros i Hi. pose proof (sibling_loop_current children) as Hcur.
    simpl in Hcur. unfold loop_step.
    destruct (Soup.is_tag "li" child).
    + destruct (PyStr.startswith _ _); simpl; [|done].
      by rewrite lookup_app_l by lia.
    + destruct (Soup.is_tag "ul" child); [|done].
      destruct (current_url _) as [j|]; simpl; [|done].
      apply list_lookup_alter_ne. lia.
Qed.

Lemma sibling_loop_orphan_lists_witness :
  sibling_loop (orphan_children ++ url_children) = sibling_loop url_children
  ∧ url <$> urls (loop_step (sibling_loop url_children)
                            (Soup.Tag "ul" []))
    = url <$> urls (sibling_loop url_children)
  ∧ urls (loop_step (sibling_loop url_children) (Soup.Tag "ul" [])) !! 0
    = urls (sibling_loop url_children) !! 0.
Proof.
  destruct (sibling_loop_orphan_lists orphan_children url_children
              url_children (Soup.Tag "ul" [])) as (Hpre & Hul & _ & Hold).
  split_and!.
  - apply Hpre. intros c ->%list_elem_of_singleton [Hli _]. discriminate Hli.
  - apply Hul. reflexivity.
  - apply Hold. vm_compute. lia.
Defined.

(** ** Document parser: locating the working list *)

Lemma node_ind (P : Soup.node → Prop) :
  (∀ s, P (Soup.NavigableString s)) →
  (∀ s, P (Soup.Comment s)) →
  (∀ nm cs, Forall P cs → P (Soup.Tag nm cs)) →
  ∀ n, P n.
Proof.
  intros Hstr Hcom Htag. fix IH 1. intros [s|s|nm cs].
  - apply Hstr.
  - apply Hcom.
  - apply Htag. induction cs as [|c cs IHcs]; constructor; [apply IH|done].
Qed.

Lemma descendants_ctx_Tag nm cs :
  Soup.descendants_ctx (Soup.Tag nm cs) = Soup.forest_ctx cs.
Proof. simpl. induction cs as [|c cs IH]; simpl; [done|]. by rewrite IH. Qed.

Lemma forest_ctx_siblings l x : x ∈ l → x ∈ (Soup.forest_ctx l).*1.
Proof.
  induction l as [|c l IH]; [by intros ?%elem_of_nil|].
  intros [->|Hx]%elem_of_cons; csimpl; [left|].
  right. rewrite fmap_app, elem_of_app. auto.
Qed.

(** The [next_siblings] of a descendant are descendants. *)
Lemma descendants_ctx_siblings n h next_siblings x :
  (h, next_siblings) ∈ Soup.descendants_ctx n → x ∈ next_siblings →
  x ∈ Soup.descendants n.
Proof.
  unfold Soup.descendants. revert h next_siblings x.
  induction n as [s|s|nm cs IH] using node_ind; intros h after x;
    [by intros ?%elem_of_nil..|].
  rewrite descendants_ctx_Tag.
  induction IH as [|c cs Hc Hcs IHcs]; [by intros ?%elem_of_nil|].
  csimpl. rewrite fmap_app.
  intros [Heq | [Hin | Hin]%elem_of_app]%elem_of_cons Hx.
  - simplify_eq. right. apply elem_of_app. right.
    by apply forest_ctx_siblings.
  - right. apply elem_of_app. left. by apply (Hc h after).
  - right. apply elem_of_app. right. by apply (IHcs Hin).
Qed.

(** The descendants of a descendant are descendants. *)
Lemma descendants_trans n c x :
  c ∈ Soup.descendants n → x ∈ Soup.descendants c → x ∈ Soup.descendants n.
Proof.
  unfold Soup.descendants at 1 3. revert c x.
  induction n as [s|s|nm cs IH] using node_ind; intros d x;
    [by intros ?%elem_of_nil..|].
  rewrite descendants_ctx_Tag.
  induction IH as [|c cs Hc Hcs IHcs]; [by intros ?%elem_of_nil|].
  csimpl. rewrite fmap_app.
  intros [Heq | [Hin | Hin]%elem_of_app]%elem_of_cons Hx.
  - subst d. right. apply elem_of_app. by left.
  - right. apply elem_of_app. left. by apply (Hc d).
  - right. apply elem_of_app. right. by apply IHcs.
Qed.

Lemma filter_none {A} (P : A → Prop) `{!∀ x, Decision (P x)} (l : list A) :
  (∀ x, x ∈ l → ¬ P x) → filter P l = [].
Proof.
  induction l as [|a l IH]; intros Hl; [done|].
  rewrite filter_cons_False by (apply Hl; left).
  apply IH. intros x Hx. apply Hl. by right.
Qed.

Lemma find_elem_of nm n x :
  Soup.find nm n = Some x → x ∈ Soup.descendants n ∧ Soup.is_tag nm x = true.
Proof.
  unfold Soup.find, Soup.find_all.
  intros Hx%head_Some_elem_of%list_elem_of_filter. tauto.
Qed.

Lemma find_no_tag nm n :
  (∀ x, x ∈ Soup.descendants n → Soup.is_tag nm x = false) →
  Soup.find nm n = None.
Proof.
  intros Hn. unfold Soup.find, Soup.find_all. rewrite filter_none; [done|].
  intros x Hx. rewrite (Hn x Hx). done.
Qed.

Lemma find_next_sibling_no_tag nm next_siblings :
  (∀ x, x ∈ next_siblings → Soup.is_tag nm x = false) →
  Soup.find_next_sibling nm next_siblings = None.
Proof.
  intros Hn. unfold Soup.find_next_sibling. rewrite filter_none; [done|].
  intros x Hx. rewrite (Hn x Hx). done.
Qed.

(** [find] returns the first tag of that name in document order. *)
Lemma find_first nm n x :
  Soup.find nm n = Some x →
  ∃ before after,
    Soup.descendants n = before ++ x :: after
    ∧ Soup.is_tag nm x = true
    ∧ ∀ y, y ∈ before → Soup.is_tag nm y = false.
Proof.
  unfold Soup.find, Soup.find_all.
  induction (Soup.descendants n) as [|d ds IH]; [done|].
  rewrite filter_cons. destruct (decide (Soup.is_tag nm d = true)) as [Hd|Hd].
  - simpl. intros [= ->]. exists [], ds. split_and!; [done..|].
    by intros y ?%elem_of_nil.
  - intros (before & after & -> & Hx & Hbefore)%IH.
    exists (d :: before), after. split_and!; [done..|].
    intros y [->|Hy]%elem_of_cons; [by destruct (Soup.is_tag nm d)|auto].
Qed.

Lemma find_all_nil nm n x :
  Soup.find_all nm n = [] → x ∈ Soup.descendants n → Soup.is_tag nm x = false.
Proof.
  unfold Soup.find_all. intros Hnil Hx.
  destruct (Soup.is_tag nm x) eqn:Htag; [|done].
  exfalso. eapply filter_nil_not_elem_of; [exact Hnil| |exact Hx]. done.
Qed.

Lemma find_with_string_no_heading soup :
  (∀ h, h ∈ Soup.descendants soup → ¬ is_dynamic_heading h) →
  Soup.find_with_string "h2" "Dynamic URLs" soup = None.
Proof.
  intros Hno. unfold Soup.find_with_string. rewrite filter_none; [done|].
  intros [h next_siblings] Hin [Htag Hstr]. simpl in *.
  apply (Hno h); [|split; auto].
  unfold Soup.descendants. apply list_elem_of_fmap. by exists (h, next_siblings).
Qed.

Lemma find_with_text_no_heading soup :
  (∀ h, h ∈ Soup.descendants soup → ¬ is_dynamic_heading h) →
  Soup.find_with_text "h2" "Dynamic URLs" soup = None.
Proof.
  intros Hno. unfold Soup.find_with_text. rewrite filter_none; [done|].
  intros [h next_siblings] Hin [Htag Hstr]. simpl in *.
  apply (Hno h); [|split; auto].
  unfold Soup.descendants. apply list_elem_of_fmap. by exists (h, next_siblings).
Qed.

Lemma head_filter_ctx_siblings (P : Soup.node * list Soup.node → Prop)
    `{!∀ d, Decision (P d)} soup h next_siblings x :
  head (filter P (Soup.descendants_ctx soup)) = Some (h, next_siblings) →
  x ∈ next_siblings → x ∈ Soup.descendants soup.
Proof.
  intros [_ Hin]%head_Some_elem_of%list_elem_of_filter.
  by apply (descendants_ctx_siblings soup h next_siblings).
Qed.

(** C2, as amended: without a heading whose text equals or contains
    ["Dynamic URLs"], [parse_burp_html] of [src/Full_Files/app.py] reads the
    first list of the document body, in document order, and builds the
    records from it; the second program of [src/ParaDoWat.py] has no such
    fallback and gives the empty sequence whenever the heading is missing;
    in both programs a document without any list gives the empty
    sequence. *)
Theorem parse_burp_html_fallback (soup : Soup.node) :
  ((∀ h, h ∈ Soup.descendants soup → ¬ is_dynamic_heading h) →
   App.parse_burp_html soup
   = match Soup.find "body" soup ≫= Soup.find "ul" with
     | Some main_ul =>
         with_parameters (urls (sibling_loop (Soup.children main_ul)))
     | None => []
     end)
  ∧ (∀ body main_ul,
       Soup.find "body" soup = Some body →
       Soup.find "ul" body = Some main_ul →
       ∃ before after,
         Soup.descendants body = before ++ main_ul :: after
         ∧ Soup.is_tag "ul" main_ul = true
         ∧ ∀ y, y ∈ before → Soup.is_tag "ul" y = false)
  ∧ (Soup.find_all "ul" soup = [] →
     App.parse_burp_html soup = [] ∧ ParaDoWat5.parse_burp_html soup = [])
  ∧ ((∀ h, h ∈ Soup.descendants soup → ¬ is_dynamic_heading h) →
     ParaDoWat5.parse_burp_html soup = []).
Proof.
  split_and!.
  - intros Hno. unfold App.parse_burp_html.
    rewrite find_with_string_no_heading by done.
    by destruct (Soup.find "body" soup) as [body|].
  - intros body main_ul _ Hul. by apply find_first.
  - intros Hnil.
    assert (Hno : ∀ x, x ∈ Soup.descendants soup → Soup.is_tag "ul" x = false)
      by (intros x; by apply find_all_nil).
    split.
    + unfold App.parse_burp_html.
      destruct (Soup.find_with_string _ _ soup) as [[h next_siblings]|] eqn:Hh.
      * rewrite find_next_sibling_no_tag; [done|].
        intros x Hx. apply Hno. eapply head_filter_ctx_siblings; eauto.
      * destruct (Soup.find "body" soup) as [body|] eqn:Hbody; [|done].
        rewrite find_no_tag; [done|].
        intros x Hx. apply Hno. eapply descendants_trans; [|exact Hx].
        by apply (find_elem_of "body").
    + unfold ParaDoWat5.parse_burp_html.
      destruct (Soup.find_with_text _ _ soup) as [[h next_siblings]|] eqn:Hh;
        [|done].
      rewrite find_next_sibling_no_tag; [done|].
      intros x Hx. apply Hno. eapply head_filter_ctx_siblings; eauto.
  - intros Hno. unfold ParaDoWat5.parse_burp_html.
    by rewrite find_with_text_no_heading.
Qed.

Lemma parse_burp_html_fallback_witness :
  App.parse_burp_html plain_document
  = match Soup.find "body" plain_document ≫= Soup.find "ul" with
    | Some main_ul =>
        with_parameters (urls (sibling_loop (Soup.children main_ul)))
    | None => []
    end
  ∧ ParaDoWat5.parse_burp_html plain_document = []
  ∧ App.parse_burp_html (Soup.Tag "[document]" []) = []
  ∧ ParaDoWat5.parse_burp_html (Soup.Tag "[document]" []) = [].
Proof.
  assert (Hno : ∀ h, h ∈ Soup.descendants plain_document →
                     ¬ is_dynamic_heading h).
  { intros h Hh [Htag _]. revert h Hh Htag.
    apply (proj1 (Forall_forall (λ h, ¬ Soup.is_tag "h2" h = true)
                    (Soup.descendants plain_document))).
    apply (bool_decide_unpack _). vm_compute. exact I. }
  destruct (parse_burp_html_fallback plain_document) as (Hback & _ & _ & Hp5).
  destruct (parse_burp_html_fallback (Soup.Tag "[document]" []))
    as (_ & _ & Hnone & _).
  split_and!.
  - exact (Hback Hno).
  - exact (Hp5 Hno).
  - exact (proj1 (Hnone eq_refl)).
  - exact (proj2 (Hnone eq_refl)).
Defined.

(** C2, as stated, fails on the second program of [src/ParaDoWat.py]: on a
    document without headings whose body holds a list with one URL and one
    parameter, [parse_burp_html] returns the empty sequence, not the record
    that its loop builds from that list. *)
Lemma parse_burp_html_no_fallback :
  ¬ (∀ soup,
       (∀ h, h ∈ Soup.descendants soup → ¬ is_dynamic_heading h) →
       ParaDoWat5.parse_burp_html soup
       = match Soup.find "body" soup ≫= Soup.find "ul" with
         | Some main_ul =>
             fold_left ParaDoWat5.li_step
                       (Soup.find_all_children "li" main_ul) []
         | None => []
         end).
Proof.
  intros H. specialize (H nested_document).
  assert (Hc : @nil url_record
               = [{| url := "http://x/a";
                     parameters := [{| key := "id"; value := "1" |}] |}]);
    [|discriminate Hc].
  apply H. intros h Hh [Htag _]. revert h Hh Htag.
  apply (proj1 (Forall_forall (λ h, ¬ Soup.is_tag "h2" h = true)
                  (Soup.descendants nested_document))).
  apply (bool_decide_unpack _). vm_compute. exact I.
Qed.

(** ** The examples of the specification *)

Example example_index :
  let idx := App.process_urls elements example_urls in
  App.total_urls idx = 2
  ∧ App.total_params idx = 2
  ∧ App.all_param_names idx = ["id"; "search"]
  ∧ App.total_occurrences <$> Dict.get "id" (App.params idx) = Some 2
  ∧ App.auto_tags <$> Dict.get "id" (App.params idx) = Some ["IDOR"; "SQLi"]
  ∧ App.auto_tags <$> Dict.get "search" (App.params idx) = Some ["XSS"].
Proof. by vm_compute. Qed.

Example example_debug_entry :
  Dict.get "debug" (ParaDoWat.params (ParaDoWat.process_urls elements debug_urls))
  = Some {| ParaDoWat.values := [("(empty)", ["http://x/a"])];
            ParaDoWat.total_occurrences := 1;
            ParaDoWat.auto_tags := ["Debug"];
            ParaDoWat.has_empty_values := true |}.
Proof. by vm_compute. Qed.

Example example_co_occurrence :
  get_co_occurrence
    [{| url := "http://x/a";
        parameters := [{| key := "id"; value := "1" |};
                       {| key := "token"; value := "s" |}] |};
     {| url := "http://x/b";
        parameters := [{| key := "id"; value := "2" |};
                       {| key := "token"; value := "t" |}] |}] "id"
  = [{| param := "token"; count := 2; auto_tags := ["Auth"] |}].
Proof. by vm_compute. Qed.

Example example_repeated_key :
  get_co_occurrence repeated_key_urls "token"
  = [{| param := "id"; count := 2; auto_tags := ["IDOR"; "SQLi"] |}]
  ∧ records_with_both repeated_key_urls "token" "id" = 1.
Proof. by vm_compute. Qed.

Example example_parse :
  App.parse_burp_html plain_document
  = [{| url := "http://x/a";
        parameters := [{| key := "id"; value := "1" |}] |}]
  ∧ ParaDoWat5.parse_burp_html plain_document = []
  ∧ Streamlit.parse_burp_html (Soup.Tag "[document]" url_children)
    = inl Streamlit.AttributeError.
Proof. by vm_compute. Qed.

(** * Further properties *)

(** ** Aggregator: every entry, key by key *)

Section scan_by_key.
Context {E : Type} (new_entry : string → E).
Context (visit : string → parameter → E → E).

Lemma entry_after_snoc k l i :
  entry_after new_entry visit k (l ++ [i])
  = Some (visit i.1 i.2 (default (new_entry k)
                                 (entry_after new_entry visit k l))).
Proof.
  unfold entry_after. destruct l as [|j l]; [done|].
  simpl. by rewrite fold_left_app.
Qed.

(** The entry of a key is built by the visits of the instances of that key
    alone. *)
Lemma scan_with_get urls k :
  Dict.get k (scan_with new_entry visit urls).1
  = entry_after new_entry visit k (instances_of urls k).
Proof.
  rewrite scan_with_instances. unfold instances_of.
  induction (instances urls) as [|[u p] insts IH] using rev_ind; [done|].
  rewrite scan_with_snoc, filter_app.
  destruct (fold_left _ insts _) as [pd S]. simpl in IH.
  unfold param_step. simpl. rewrite dict_get_alter.
  rewrite filter_cons, filter_nil. simpl.
  destruct (decide (key p = k)) as [Hk|Hk].
  - rewrite entry_after_snoc, <- IH. simpl. subst k.
    destruct (Dict.mem (key p) pd) eqn:Hmem.
    + unfold Dict.mem in Hmem. by destruct (Dict.get (key p) pd).
    + rewrite dict_get_set, decide_True by done.
      unfold Dict.mem in Hmem. by destruct (Dict.get (key p) pd).
  - rewrite app_nil_r, <- IH.
    destruct (Dict.mem (key p) pd); [done|].
    by rewrite dict_get_set, decide_False.
Qed.
End scan_by_key.

Lemma add_url_lookup v v' u vals :
  Dict.get v' (add_url v u vals)
  = if decide (v = v') then Some (default [] (Dict.get v vals) ++ [u])
    else Dict.get v' vals.
Proof.
  unfold add_url. rewrite dict_get_alter.
  destruct (Dict.mem v vals) eqn:Hmem.
  - case_decide; [|done]. subst v'. unfold Dict.mem in Hmem.
    by destruct (Dict.get v vals).
  - rewrite dict_get_set. case_decide; [|done]. subst v'.
    unfold Dict.mem in Hmem. by destruct (Dict.get v vals).
Qed.

(** The value map that the instances [l] of one key build. *)
Lemma add_url_fold_lookup (l : list (string * parameter)) v :
  Dict.get v (fold_left (λ vals i, add_url (value_key i.2) i.1 vals) l
                        Dict.empty)
  = match (filter (λ i, value_key i.2 = v) l).*1 with
    | [] => None
    | us => Some us
    end.
Proof.
  induction l as [|[u p] l IH] using rev_ind; [done|].
  rewrite fold_left_app, filter_app, fmap_app. simpl.
  rewrite add_url_lookup, filter_cons, filter_nil. simpl.
  destruct (decide (value_key p = v)) as [Hv|Hv].
  - subst v. rewrite IH. simpl.
    by destruct ((filter _ l).*1).
  - rewrite IH. csimpl. by rewrite app_nil_r.
Qed.

Lemma App_visits_values (l : list (string * parameter)) e :
  App.values (fold_left (λ e i, App.visit i.1 i.2 e) l e)
  = fold_left (λ vals i, add_url (value_key i.2) i.1 vals) l (App.values e)
  ∧ App.total_occurrences (fold_left (λ e i, App.visit i.1 i.2 e) l e)
    = App.total_occurrences e + length l
  ∧ App.auto_tags (fold_left (λ e i, App.visit i.1 i.2 e) l e)
    = App.auto_tags e.
Proof.
  revert e. induction l as [|i l IH]; intros e; simpl; [auto with lia|].
  destruct (IH (App.visit i.1 i.2 e)) as (-> & -> & ->). simpl.
  split_and!; [done|lia|done].
Qed.

Lemma ParaDoWat_visits_values (l : list (string * parameter)) e :
  ParaDoWat.values (fold_left (λ e i, ParaDoWat.visit i.1 i.2 e) l e)
  = fold_left (λ vals i, add_url (value_key i.2) i.1 vals) l
              (ParaDoWat.values e)
  ∧ ParaDoWat.total_occurrences
      (fold_left (λ e i, ParaDoWat.visit i.1 i.2 e) l e)
    = ParaDoWat.total_occurrences e + length l
  ∧ ParaDoWat.auto_tags (fold_left (λ e i, ParaDoWat.visit i.1 i.2 e) l e)
    = ParaDoWat.auto_tags e
  ∧ ParaDoWat.has_empty_values
      (fold_left (λ e i, ParaDoWat.visit i.1 i.2 e) l e)
    = ParaDoWat.has_empty_values e
      || bool_decide (Exists (λ i, value i.2 = EmptyString) l).
Proof.
  revert e. induction l as [|i l IH]; intros e; simpl.
  - split_and!; [done|lia|done|by rewrite orb_false_r].
  - destruct (IH (ParaDoWat.visit i.1 i.2 e)) as (-> & -> & -> & ->). simpl.
    split_and!; [done|lia|done|].
    destruct (value i.2) as [|c v] eqn:Hv; simpl.
    + rewrite (bool_decide_eq_true_2 (Exists _ (i :: l))) by (by left).
      by rewrite orb_true_r.
    + f_equal. apply bool_decide_ext. rewrite Exists_cons, Hv.
      split; [by right | by intros [?|?]].
Qed.

(** X1: in the index of either program, the list that [values] of the entry
    of [k] holds under [v] is the list of the URLs of the instances named [k]
    whose value is filed under [v], in the order of the scan; there is no
    such list exactly when there is no such instance. *)
Theorem values_list_the_urls los (urls : list url_record) (k v : string) :
  (Dict.get k (App.params (App.process_urls los urls))
     ≫= λ e, Dict.get v (App.values e))
  = match urls_with urls k v with [] => None | us => Some us end
  ∧ (Dict.get k (ParaDoWat.params (ParaDoWat.process_urls los urls))
       ≫= λ e, Dict.get v (ParaDoWat.values e))
    = match urls_with urls k v with [] => None | us => Some us end.
Proof.
  rewrite App_process_urls_eq, ParaDoWat_process_urls_eq. simpl.
  unfold App.scan, ParaDoWat.scan, urls_with. rewrite !scan_with_get.
  unfold entry_after.
  destruct (instances_of urls k) as [|i l]; [done|]. simpl. split.
  - destruct (App_visits_values l (App.visit i.1 i.2 (App.new_entry k)))
      as (-> & _ & _).
    apply (add_url_fold_lookup (i :: l)).
  - destruct (ParaDoWat_visits_values l
                (ParaDoWat.visit i.1 i.2 (ParaDoWat.new_entry k)))
      as (-> & _ & _ & _).
    apply (add_url_fold_lookup (i :: l)).
Qed.

(** X2: in the index of either program, [params] has an entry for [k]
    exactly when some parameter instance is named [k]; its
    [total_occurrences] is the number of these instances and its [auto_tags]
    are the tags of [k]. *)
Theorem entry_counts_the_instances los (urls : list url_record) (k : string) :
  (λ e, (App.total_occurrences e, App.auto_tags e))
    <$> Dict.get k (App.params (App.process_urls los urls))
  = match length (instances_of urls k) with
    | 0 => None
    | n => Some (n, get_auto_tags k)
    end
  ∧ (λ e, (ParaDoWat.total_occurrences e, ParaDoWat.auto_tags e))
      <$> Dict.get k (ParaDoWat.params (ParaDoWat.process_urls los urls))
    = match length (instances_of urls k) with
      | 0 => None
      | n => Some (n, get_auto_tags k)
      end.
Proof.
  rewrite App_process_urls_eq, ParaDoWat_process_urls_eq. simpl.
  unfold App.scan, ParaDoWat.scan. rewrite !scan_with_get.
  unfold entry_after.
  destruct (instances_of urls k) as [|i l]; [done|]. simpl. split.
  - destruct (App_visits_values l (App.visit i.1 i.2 (App.new_entry k)))
      as (_ & -> & ->). done.
  - destruct (ParaDoWat_visits_values l
                (ParaDoWat.visit i.1 i.2 (ParaDoWat.new_entry k)))
      as (_ & -> & -> & _). done.
Qed.

(** X3: in the index of the priority program, [has_empty_values] of the
    entry of [k] is set exactly when some record carries a parameter named
    [k] with an empty value. *)
Theorem has_empty_values_exact los (urls : list url_record) (k : string)
    (e : ParaDoWat.entry) :
  Dict.get k (ParaDoWat.params (ParaDoWat.process_urls los urls)) = Some e →
  ParaDoWat.has_empty_values e = true ↔
  ∃ url_obj p, url_obj ∈ urls ∧ p ∈ parameters url_obj
               ∧ key p = k ∧ value p = EmptyString.
Proof.
  rewrite ParaDoWat_process_urls_eq. simpl.
  unfold ParaDoWat.scan. rewrite scan_with_get. unfold entry_after.
  destruct (instances_of urls k) as [|i l] eqn:Hl; [done|].
  intros [= <-].
  destruct (ParaDoWat_visits_values (i :: l) (ParaDoWat.new_entry k))
    as (_ & _ & _ & Hempty).
  simpl in Hempty. rewrite Hempty, <- Hl.
  rewrite bool_decide_eq_true, Exists_exists. unfold instances_of.
  split.
  - intros ([u p] & [Hk Hin]%list_elem_of_filter & Hv). simpl in *.
    apply elem_of_instances in Hin as (url_obj & Hu & _ & Hp).
    by exists url_obj, p.
  - intros (url_obj & p & Hu & Hp & Hk & Hv).
    exists (url url_obj, p). split; [|done].
    apply list_elem_of_filter. split; [done|].
    apply elem_of_instances. by exists url_obj.
Qed.

Lemma has_empty_values_exact_witness :
  ParaDoWat.has_empty_values
    {| ParaDoWat.values := [("(empty)", ["http://x/a"])];
       ParaDoWat.total_occurrences := 1;
       ParaDoWat.auto_tags := ["Debug"];
       ParaDoWat.has_empty_values := true |} = true ↔
  ∃ url_obj p, url_obj ∈ debug_urls ∧ p ∈ parameters url_obj
               ∧ key p = "debug" ∧ value p = EmptyString.
Proof.
  apply (has_empty_values_exact elements debug_urls "debug"). by vm_compute.
Defined.

(** ** Aggregator: the programs side by side *)

Section dict_map_facts.
Context {V W : Type} (f : V → W).

Lemma dict_map_keys d : Dict.keys (dict_map f d) = Dict.keys d.
Proof.
  unfold Dict.keys, dict_map. rewrite <- list_fmap_compose.
  by apply list_fmap_ext; intros ? [].
Qed.

Lemma dict_map_values d : Dict.values (dict_map f d) = f <$> Dict.values d.
Proof.
  unfold Dict.values, dict_map. rewrite <- !list_fmap_compose.
  by apply list_fmap_ext; intros ? [].
Qed.

Lemma dict_map_get k d : Dict.get k (dict_map f d) = f <$> Dict.get k d.
Proof.
  unfold dict_map. induction d as [|[k' v] d IH]; csimpl; [done|].
  by case_decide.
Qed.

Lemma dict_map_mem k d : Dict.mem k (dict_map f d) = Dict.mem k d.
Proof. unfold Dict.mem. rewrite dict_map_get. by destruct (Dict.get k d). Qed.

Lemma dict_map_set k v d :
  Dict.set k (f v) (dict_map f d) = dict_map f (Dict.set k v d).
Proof.
  unfold dict_map. induction d as [|[k' v'] d IH]; csimpl; [done|].
  case_decide; csimpl; [done|]. by rewrite IH.
Qed.

Lemma dict_map_alter (g : V → V) (h : W → W) k d :
  (∀ v, h (f v) = f (g v)) →
  Dict.alter h k (dict_map f d) = dict_map f (Dict.alter g k d).
Proof.
  intros Hgh. unfold dict_map.
  induction d as [|[k' v'] d IH]; csimpl; [done|].
  case_decide; csimpl; [by rewrite Hgh|]. by rewrite IH.
Qed.
End dict_map_facts.

(** Two scans whose entries are related by [f] build related dictionaries. *)
Section scan_simulation.
Context {E1 E2 : Type} (f : E2 → E1).
Context (new1 : string → E1) (visit1 : string → parameter → E1 → E1).
Context (new2 : string → E2) (visit2 : string → parameter → E2 → E2).
Hypothesis f_new : ∀ k, f (new2 k) = new1 k.
Hypothesis f_visit : ∀ u p e, f (visit2 u p e) = visit1 u p (f e).

Lemma param_step_map u pd S p :
  param_step new1 visit1 u (dict_map f pd, S) p
  = (dict_map f (param_step new2 visit2 u (pd, S) p).1,
     (param_step new2 visit2 u (pd, S) p).2).
Proof.
  unfold param_step. simpl. f_equal. rewrite dict_map_mem.
  rewrite <- (dict_map_alter f (visit2 u p) (visit1 u p))
    by (intros; by rewrite f_visit).
  f_equal. destruct (Dict.mem (key p) pd); [done|].
  by rewrite <- dict_map_set, f_new.
Qed.

Lemma scan_with_map urls :
  scan_with new1 visit1 urls
  = (dict_map f (scan_with new2 visit2 urls).1,
     (scan_with new2 visit2 urls).2).
Proof.
  rewrite !scan_with_instances.
  induction (instances urls) as [|[u p] insts IH] using rev_ind; [done|].
  rewrite !scan_with_snoc, IH.
  destruct (fold_left (λ st i, param_step new2 visit2 i.1 st i.2) insts
                      (Dict.empty, ∅)) as [pd S]. simpl.
  apply param_step_map.
Qed.
End scan_simulation.

Lemma scan_keys_elements {E} (new_entry : string → E) visit urls :
  size (scan_with new_entry visit urls).2
  = length (Dict.keys (scan_with new_entry visit urls).1).
Proof.
  destruct (scan_with_inv new_entry visit urls) as (Hnd & HS & _).
  unfold size, set_size. simpl. apply Permutation_length.
  apply NoDup_Permutation; [apply NoDup_elements|done|].
  intros k. by rewrite elem_of_elements.
Qed.

(** X4: in either program, [total_params] is the number of entries of
    [params] and the length of [all_param_names], and [total_urls] is the
    number of input records; an empty record sequence gives the empty index
    with both counts 0. *)
Theorem index_counts los (urls : list url_record) :
  enumerates los →
  (App.total_params (App.process_urls los urls)
   = length (Dict.keys (App.params (App.process_urls los urls)))
   ∧ App.total_params (App.process_urls los urls)
     = length (App.all_param_names (App.process_urls los urls))
   ∧ App.total_urls (App.process_urls los urls) = length urls
   ∧ App.process_urls los []
     = {| App.params := []; App.all_param_names := [];
          App.total_urls := 0; App.total_params := 0 |})
  ∧ (ParaDoWat.total_params (ParaDoWat.process_urls los urls)
     = length (Dict.keys (ParaDoWat.params (ParaDoWat.process_urls los urls)))
     ∧ ParaDoWat.total_params (ParaDoWat.process_urls los urls)
       = length (ParaDoWat.all_param_names (ParaDoWat.process_urls los urls))
     ∧ ParaDoWat.total_urls (ParaDoWat.process_urls los urls) = length urls
     ∧ ParaDoWat.process_urls los []
       = {| ParaDoWat.params := []; ParaDoWat.all_param_names := [];
            ParaDoWat.total_urls := 0; ParaDoWat.total_params := 0 |}).
Proof.
  intros Hlos.
  assert (Hnil : los ∅ = []).
  { apply Permutation_nil_r. by rewrite (Hlos ∅), elements_empty. }
  rewrite !App_process_urls_eq, !ParaDoWat_process_urls_eq. simpl.
  unfold App.scan, ParaDoWat.scan. rewrite !scan_keys_elements.
  split; split_and!; try done.
  - symmetry. apply Permutation_length.
    by apply (names_Permutation App.key_lt).
  - cbn. by rewrite Hnil.
  - symmetry. apply Permutation_length.
    by apply (names_Permutation ParaDoWat.key_lt).
  - cbn. by rewrite Hnil.
Qed.

Lemma index_counts_witness :
  App.total_params (App.process_urls elements example_urls)
  = length (App.all_param_names (App.process_urls elements example_urls)).
Proof.
  assert (Hlos : enumerates elements) by (intros s; reflexivity).
  exact (proj1 (proj2 (proj1 (index_counts elements example_urls Hlos)))).
Defined.

Lemma erase_new k : erase (ParaDoWat.new_entry k) = App.new_entry k.
Proof. done. Qed.

Lemma erase_visit u p e :
  erase (ParaDoWat.visit u p e) = App.visit u p (erase e).
Proof. done. Qed.

(** X5: on the same records, the simple and the priority program build the
    same entries in the same order, up to the field [has_empty_values] that
    only the priority program has, and the same counts; their
    [all_param_names] hold the same names, in an order of their own. *)
Theorem programs_agree los (urls : list url_record) :
  enumerates los →
  App.params (App.process_urls los urls)
  = dict_map erase (ParaDoWat.params (ParaDoWat.process_urls los urls))
  ∧ App.total_urls (App.process_urls los urls)
    = ParaDoWat.total_urls (ParaDoWat.process_urls los urls)
  ∧ App.total_params (App.process_urls los urls)
    = ParaDoWat.total_params (ParaDoWat.process_urls los urls)
  ∧ App.all_param_names (App.process_urls los urls)
    ≡ₚ ParaDoWat.all_param_names (ParaDoWat.process_urls los urls).
Proof.
  intros Hlos.
  rewrite App_process_urls_eq, ParaDoWat_process_urls_eq. simpl.
  unfold App.scan, ParaDoWat.scan.
  rewrite (scan_with_map erase App.new_entry App.visit
             ParaDoWat.new_entry ParaDoWat.visit erase_new erase_visit).
  simpl. split_and!; [done..|].
  rewrite !sorted_Permutation. by rewrite !(Hlos _).
Qed.

Lemma programs_agree_witness :
  App.params (App.process_urls elements debug_urls)
  = dict_map erase (ParaDoWat.params (ParaDoWat.process_urls elements debug_urls)).
Proof.
  assert (Hlos : enumerates elements) by (intros s; reflexivity).
  exact (proj1 (programs_agree elements debug_urls Hlos)).
Defined.

(** ** Relationship engine: partners, order and bounds *)

Lemma first_seen_from (l acc : list string) :
  NoDup acc →
  let r := fold_left (λ acc k, if decide (k ∈ acc) then acc else acc ++ [k])
                     l acc in
  NoDup r ∧ ∀ k, k ∈ r ↔ k ∈ acc ∨ k ∈ l.
Proof.
  revert acc. induction l as [|x l IH]; intros acc Hacc; simpl.
  - split; [done|]. intros k. split; [auto|]. by intros [?|?%elem_of_nil].
  - destruct (decide (x ∈ acc)) as [Hx|Hx].
    + destruct (IH acc Hacc) as [Hnd Hin]. split; [done|].
      intros k. rewrite Hin, elem_of_cons.
      split; [intros [?|?]; auto|intros [?|[->|?]]; auto].
    + destruct (IH (acc ++ [x])) as [Hnd Hin].
      { apply NoDup_app. split_and!; [done| |apply NoDup_singleton].
        by intros y Hy ->%list_elem_of_singleton. }
      split; [done|]. intros k.
      rewrite Hin, elem_of_app, list_elem_of_singleton, elem_of_cons.
      split; [intros [[?|?]|?]; auto|intros [?|[?|?]]; auto].
Qed.

Lemma first_seen_NoDup l : NoDup (first_seen l).
Proof. apply (first_seen_from l []). constructor. Qed.

Lemma elem_of_first_seen l k : k ∈ first_seen l ↔ k ∈ l.
Proof.
  destruct (first_seen_from l [] (NoDup_nil_2 (A:=string))) as [_ Hin].
  unfold first_seen. rewrite Hin. split; [by intros [?%elem_of_nil|?]|auto].
Qed.

Lemma increment_keys k d :
  Dict.keys (increment k d)
  = if decide (k ∈ Dict.keys d) then Dict.keys d else Dict.keys d ++ [k].
Proof.
  unfold increment. case_decide.
  - by apply dict_set_keys_mem.
  - rewrite dict_set_fresh by done. unfold Dict.keys. by rewrite fmap_app.
Qed.

Lemma key_loop_keys target ks co :
  Dict.keys (fold_left (key_step target) ks co)
  = fold_left (λ acc k, if decide (k ∈ acc) then acc else acc ++ [k])
              (filter (λ k, k ≠ target) ks) (Dict.keys co).
Proof.
  revert co. induction ks as [|k ks IH]; intros co; simpl; [done|].
  rewrite IH, filter_cons. unfold key_step.
  destruct (decide (k ≠ target)); [|done]. simpl. by rewrite increment_keys.
Qed.

Lemma co_loop_keys urls target co :
  Dict.keys (fold_left (co_step target) urls co)
  = fold_left (λ acc k, if decide (k ∈ acc) then acc else acc ++ [k])
              (partner_stream urls target) (Dict.keys co).
Proof.
  unfold partner_stream. revert co.
  induction urls as [|u urls IH]; intros co; csimpl; [done|].
  rewrite fold_left_app, IH. f_equal. unfold co_step. fold (param_keys u).
  case_bool_decide; [apply key_loop_keys|done].
Qed.

(** The counter holds the partners in the order in which it first met
    them. *)
Lemma co_occurrence_counts_keys urls target :
  Dict.keys (co_occurrence_counts urls target)
  = first_seen (partner_stream urls target).
Proof. apply co_loop_keys. Qed.

Lemma filter_partner_stream (target k : string) (xs : list string) :
  k ≠ target →
  filter (λ k', k' = k) (filter (λ k', k' ≠ target) xs)
  = filter (λ k', k' = k) xs.
Proof.
  intros Hk. induction xs as [|x xs IHx]; [done|].
  rewrite !filter_cons. destruct (decide (x = k)) as [->|Hx].
  - rewrite decide_True by done. rewrite filter_cons, decide_True by done.
    by rewrite IHx.
  - destruct (decide (x ≠ target)); [|done].
    by rewrite filter_cons, decide_False.
Qed.

Lemma instances_with_stream urls target k :
  k ≠ target →
  instances_with urls target k
  = length (filter (λ k', k' = k) (partner_stream urls target)).
Proof.
  intros Hk. unfold instances_with, partner_stream.
  induction urls as [|u urls IH]; csimpl; [done|].
  rewrite filter_app, length_app, IH. f_equal.
  case_bool_decide; [|done]. by rewrite filter_partner_stream.
Qed.

Lemma instances_with_positive urls target k :
  k ≠ target →
  0 < instances_with urls target k ↔
  ∃ u, u ∈ urls ∧ target ∈ param_keys u ∧ k ∈ param_keys u.
Proof.
  intros Hk. unfold instances_with.
  induction urls as [|u urls IH]; simpl.
  - split; [lia|]. by intros (u & ?%elem_of_nil & _).
  - assert (Hu : 0 < (if bool_decide (target ∈ param_keys u)
                      then length (filter (λ k', k' = k) (param_keys u))
                      else 0)
                 ↔ target ∈ param_keys u ∧ k ∈ param_keys u).
    { case_bool_decide; [|split; [lia|tauto]].
      split.
      - intros Hlen. split; [done|].
        destruct (filter _ (param_keys u)) as [|x xs] eqn:Hf; [simpl in Hlen; lia|].
        assert (Hx : x ∈ filter (λ k', k' = k) (param_keys u))
          by (rewrite Hf; left).
        apply list_elem_of_filter in Hx as [-> Hx]. done.
      - intros [_ Hin].
        assert (Hx : k ∈ filter (λ k', k' = k) (param_keys u))
          by (by apply list_elem_of_filter).
        destruct (filter _ (param_keys u)); [by apply elem_of_nil in Hx|].
        simpl. lia. }
    split.
    + intros Hpos.
      destruct (decide (target ∈ param_keys u ∧ k ∈ param_keys u)) as [Hd|Hd].
      * exists u. split; [left|done].
      * assert (0 < sum_list_with
                      (λ u, if bool_decide (target ∈ param_keys u)
                            then length (filter (λ k', k' = k) (param_keys u))
                            else 0) urls) as Hrest.
        { rewrite <- Hu in Hd. lia. }
        apply IH in Hrest as (u' & Hin & Hboth). exists u'.
        split; [by right|done].
    + intros (u' & [->|Hin]%elem_of_cons & Hboth).
      * apply Hu in Hboth. lia.
      * assert (Hex : ∃ u, u ∈ urls ∧ target ∈ param_keys u ∧ k ∈ param_keys u)
          by (by exists u').
        apply IH in Hex. lia.
Qed.

Lemma co_occurrence_counts_lookup urls target k :
  k ≠ target →
  Dict.get k (co_occurrence_counts urls target)
  = match instances_with urls target k with
    | 0 => None
    | n => Some n
    end.
Proof.
  intros Hk.
  destruct (co_loop_inv target urls Dict.empty) as (Hnd & _ & Hcount).
  specialize (Hcount k Hk). fold (co_occurrence_counts urls target) in *.
  unfold counted in Hcount. simpl in Hcount.
  destruct (Dict.get k (co_occurrence_counts urls target)) as [n|] eqn:Hget.
  - simpl in Hcount. subst n.
    assert (Hin : k ∈ partner_stream urls target).
    { apply elem_of_first_seen. rewrite <- co_occurrence_counts_keys.
      apply dict_mem_keys. unfold Dict.mem. by rewrite Hget. }
    rewrite instances_with_stream by done.
    destruct (filter _ (partner_stream urls target)) as [|x xs] eqn:Hf; [|done].
    exfalso. eapply filter_nil_not_elem_of; [exact Hf| |exact Hin]. done.
  - simpl in Hcount. by rewrite <- Hcount.
Qed.

(** [sorted] is stable: the elements with one key keep their order. *)
Section sorted_stable.
Context {A K : Type} `{EqDecision K} (lt : K → K → bool) `{!StrictTotal lt}.
Context (sort_key : A → K) (reverse : bool).

Lemma stays_before_key y x :
  stays_before lt sort_key reverse y x = true → sort_key y ≠ sort_key x.
Proof.
  unfold stays_before. intros Hlt Heq. rewrite Heq in Hlt.
  destruct reverse; by rewrite (lt_irrefl (lt:=lt)) in Hlt.
Qed.

Lemma sorted_insert_filter c x l :
  filter (λ y, sort_key y = c) (sorted_insert lt sort_key reverse x l)
  = filter (λ y, sort_key y = c) (x :: l).
Proof.
  induction l as [|y l IH]; simpl; [done|].
  destruct (stays_before lt sort_key reverse y x) eqn:Hyx; [|done].
  apply stays_before_key in Hyx.
  rewrite (filter_cons _ y), IH, !(filter_cons _ x), (filter_cons _ y).
  destruct (decide (sort_key y = c)), (decide (sort_key x = c)); congruence.
Qed.

Lemma sorted_filter c l :
  filter (λ y, sort_key y = c) (sorted lt sort_key reverse l)
  = filter (λ y, sort_key y = c) l.
Proof.
  induction l as [|x l IH]; simpl; [done|].
  by rewrite sorted_insert_filter, !filter_cons, IH.
Qed.
End sorted_stable.

Lemma co_occurrence_counts_NoDup urls target :
  NoDup (Dict.keys (co_occurrence_counts urls target)).
Proof. rewrite co_occurrence_counts_keys. apply first_seen_NoDup. Qed.

(** X6: the partners that [get_co_occurrence] reports are pairwise
    distinct; each has a count of at least 1, shares at least one record with
    the target, and carries the tags of its own name. *)
Theorem get_co_occurrence_partners (urls : list url_record) (target : string) :
  NoDup (param <$> get_co_occurrence urls target)
  ∧ Forall (λ r, 0 < count r
                 ∧ auto_tags r = get_auto_tags (param r)
                 ∧ ∃ u, u ∈ urls ∧ target ∈ param_keys u
                        ∧ param r ∈ param_keys u)
           (get_co_occurrence urls target).
Proof.
  split.
  - unfold get_co_occurrence. rewrite <- list_fmap_compose.
    eapply sublist_NoDup; [|apply fmap_sublist, sublist_take].
    rewrite sorted_Permutation. apply co_occurrence_counts_NoDup.
  - apply Forall_forall. intros r Hr.
    assert (Htags : auto_tags r = get_auto_tags (param r)).
    { unfold get_co_occurrence in Hr.
      by apply list_elem_of_fmap in Hr as (x & -> & _). }
    apply get_co_occurrence_item in Hr.
    pose proof (co_occurrence_counts_item target urls _ _ Hr) as [Hk Hn].
    unfold Dict.items in Hr.
    apply dict_elem_of_get in Hr; [|apply co_occurrence_counts_NoDup].
    rewrite co_occurrence_counts_lookup in Hr by done.
    assert (Hpos : 0 < instances_with urls target (param r)).
    { destruct (instances_with urls target (param r)); [done|lia]. }
    split_and!; [lia|done|]. by apply instances_with_positive.
Qed.

Lemma length_instances_of urls k :
  length (instances_of urls k)
  = sum_list_with (λ u, length (filter (λ k', k' = k) (param_keys u))) urls.
Proof.
  unfold instances_of, instances, param_keys.
  induction urls as [|u urls IH]; csimpl; [done|].
  rewrite filter_app, length_app, IH. f_equal.
  induction (parameters u) as [|p ps IHp]; [done|].
  csimpl. rewrite !filter_cons. simpl.
  destruct (decide (key p = k)); simpl; by rewrite IHp.
Qed.

Lemma instances_with_le urls target k :
  instances_with urls target k ≤ length (instances_of urls k).
Proof.
  rewrite length_instances_of. unfold instances_with.
  induction urls as [|u urls IH]; simpl; [done|].
  case_bool_decide; lia.
Qed.

Lemma co_occurrence_partner_entry urls target r :
  r ∈ get_co_occurrence urls target →
  ∃ e, Dict.get (param r) (App.scan urls).1 = Some e
       ∧ count r ≤ App.total_occurrences e.
Proof.
  intros Hr. apply get_co_occurrence_item in Hr.
  pose proof (co_occurrence_counts_item target urls _ _ Hr) as [Hk Hn].
  unfold Dict.items in Hr.
  apply dict_elem_of_get in Hr; [|apply co_occurrence_counts_NoDup].
  rewrite co_occurrence_counts_lookup in Hr by done.
  pose proof (instances_with_le urls target (param r)) as Hle.
  unfold App.scan. rewrite scan_with_get. unfold entry_after.
  destruct (instances_of urls (param r)) as [|i l] eqn:Hl.
  { simpl in Hle. destruct (instances_with urls target (param r)); [done|lia]. }
  eexists. split; [done|].
  destruct (App_visits_values (i :: l) (App.new_entry (param r)))
    as (_ & -> & _).
  simpl in *. lia.
Qed.

(** X7: a partner that [get_co_occurrence] reports has an entry in the index
    that [process_urls] builds from the same records, and its co-occurrence
    count is at most the [total_occurrences] of that entry. *)
Theorem co_occurrence_below_total los (urls : list url_record)
    (target : string) :
  Forall (λ r, ∃ e, Dict.get (param r) (App.params (App.process_urls los urls))
                    = Some e
                    ∧ count r ≤ App.total_occurrences e)
         (get_co_occurrence urls target).
Proof.
  apply Forall_forall. intros r Hr. rewrite App_process_urls_eq. simpl.
  by apply (co_occurrence_partner_entry urls target).
Qed.

(** X8: a partner is missing from the result of [get_co_occurrence] only
    when there are more than 10 partners; the result then has exactly 10
    entries and each of them has at least the count of the missing one. *)
Theorem get_co_occurrence_top (urls : list url_record) (target k : string) :
  k ≠ target →
  0 < instances_with urls target k →
  k ∉ param <$> get_co_occurrence urls target →
  10 < length (first_seen (partner_stream urls target))
  ∧ length (get_co_occurrence urls target) = 10
  ∧ Forall (λ r, instances_with urls target k ≤ count r)
           (get_co_occurrence urls target).
Proof.
  intros Hk Hpos Hout.
  pose proof (co_occurrence_counts_lookup urls target k Hk) as Hget.
  destruct (instances_with urls target k) as [|n] eqn:Hn; [lia|].
  apply dict_get_elem_of in Hget.
  set (s := sorted Nat.ltb snd true
                   (Dict.items (co_occurrence_counts urls target))) in *.
  assert (Hs : (k, S n) ∈ s) by (unfold s; by rewrite sorted_Permutation).
  assert (Hdrop : (k, S n) ∈ drop 10 s).
  { rewrite <- (take_drop 10 s) in Hs.
    apply elem_of_app in Hs as [Htake|?]; [|done]. exfalso. apply Hout.
    unfold get_co_occurrence. fold s. rewrite <- list_fmap_compose.
    apply list_elem_of_fmap. by exists (k, S n). }
  assert (Hlen : 10 < length s).
  { destruct (decide (10 < length s)); [done|].
    rewrite drop_ge in Hdrop by lia. by apply elem_of_nil in Hdrop. }
  split_and!.
  - rewrite <- co_occurrence_counts_keys. unfold Dict.keys.
    rewrite length_fmap.
    assert (Hperm : s ≡ₚ Dict.items (co_occurrence_counts urls target))
      by apply sorted_Permutation.
    apply Permutation_length in Hperm. unfold Dict.items in Hperm. lia.
  - unfold get_co_occurrence. fold s. rewrite length_fmap, length_take. lia.
  - unfold get_co_occurrence. fold s. apply Forall_fmap, Forall_forall.
    intros x Hx. simpl.
    pose proof (sorted_StronglySorted Nat.ltb snd true
                  (Dict.items (co_occurrence_counts urls target))) as Hsorted.
    fold s in Hsorted. rewrite <- (take_drop 10 s) in Hsorted.
    pose proof (StronglySorted_app_1_elem_of _ _ _ x (k, S n) Hsorted Hx Hdrop)
      as Hord.
    unfold in_order, stays_before in Hord. simpl in Hord.
    apply Nat.ltb_ge in Hord. done.
Qed.

Lemma get_co_occurrence_top_witness :
  10 < length (first_seen (partner_stream crowded_urls "t"))
  ∧ length (get_co_occurrence crowded_urls "t") = 10
  ∧ Forall (λ r, instances_with crowded_urls "t" "p11" ≤ count r)
           (get_co_occurrence crowded_urls "t").
Proof.
  apply (get_co_occurrence_top crowded_urls "t" "p11").
  - discriminate.
  - vm_compute. lia.
  - apply (bool_decide_unpack _). by vm_compute.
Defined.

Lemma records_with_both_comm urls a b :
  records_with_both urls a b = records_with_both urls b a.
Proof.
  unfold records_with_both. f_equal. apply list_filter_iff. tauto.
Qed.

(** X9: when no record repeats a key, co-occurrence is symmetric: if [b] is
    reported as a partner of [a] and [a] as a partner of [b], the two counts
    are equal. *)
Theorem co_occurrence_symmetric (urls : list url_record) (a b : string)
    (r r' : relationship) :
  (∀ u, u ∈ urls → NoDup (param_keys u)) →
  r ∈ get_co_occurrence urls a → param r = b →
  r' ∈ get_co_occurrence urls b → param r' = a →
  count r = count r'.
Proof.
  intros Hnd Hr Hb Hr' Ha.
  apply get_co_occurrence_item, co_occurrence_counts_item in Hr as [_ ->].
  apply get_co_occurrence_item, co_occurrence_counts_item in Hr' as [_ ->].
  rewrite Ha, Hb, !instances_with_NoDup by done.
  apply records_with_both_comm.
Qed.

Lemma co_occurrence_symmetric_witness :
  count {| param := "search"; count := 1; auto_tags := ["XSS"] |}
  = count {| param := "id"; count := 1; auto_tags := ["IDOR"; "SQLi"] |}.
Proof.
  apply (co_occurrence_symmetric example_urls "id" "search").
  - intros u Hu. apply (bool_decide_unpack _).
    revert u Hu. apply Forall_forall. by repeat constructor.
  - vm_compute. left.
  - reflexivity.
  - vm_compute. left.
  - reflexivity.
Defined.

Lemma filter_prefix {A} (P : A → Prop) `{!∀ x, Decision (P x)} (l1 l2 : list A) :
  l1 `prefix_of` l2 → filter P l1 `prefix_of` filter P l2.
Proof. intros [l ->]. rewrite filter_app. by eexists. Qed.

Lemma filter_fmap_fst_counts urls target c :
  (filter (λ x, x.2 = c) (Dict.items (co_occurrence_counts urls target))).*1
  = filter (λ k, instances_with urls target k = c)
           (first_seen (partner_stream urls target)).
Proof.
  rewrite <- co_occurrence_counts_keys.
  assert (Hitem : ∀ x, x ∈ Dict.items (co_occurrence_counts urls target) →
                       x.2 = instances_with urls target x.1).
  { intros [k n] Hx. by apply co_occurrence_counts_item in Hx as [_ ->]. }
  unfold Dict.keys, Dict.items in *.
  induction (co_occurrence_counts urls target) as [|[k n] d IH]; [done|].
  csimpl. rewrite !filter_cons. simpl.
  pose proof (Hitem (k, n) (list_elem_of_here _ _)) as Hn. simpl in Hn.
  rewrite <- Hn, <- IH by (intros x Hx; apply Hitem; by right).
  by destruct (decide (n = c)).
Qed.

(** X10: among the partners with one and the same count, the result of
    [get_co_occurrence] keeps the order in which the scan first met them, and
    what the cut at 10 drops of them is the end of that order. *)
Theorem get_co_occurrence_ties (urls : list url_record) (target : string)
    (c : nat) :
  param <$> filter (λ r, count r = c) (get_co_occurrence urls target)
  `prefix_of` filter (λ k, instances_with urls target k = c)
                     (first_seen (partner_stream urls target)).
Proof.
  rewrite <- filter_fmap_fst_counts.
  rewrite <- (sorted_filter Nat.ltb snd true c
                (Dict.items (co_occurrence_counts urls target))).
  unfold get_co_occurrence.
  set (s := sorted Nat.ltb snd true
                   (Dict.items (co_occurrence_counts urls target))).
  assert (Hmap : ∀ l : list (string * nat),
            param <$> filter (λ r, count r = c)
              ((λ x, {| param := x.1; count := x.2;
                        auto_tags := get_auto_tags x.1 |}) <$> l)
            = (filter (λ x, x.2 = c) l).*1).
  { induction l as [|x l IH]; [done|]. csimpl. rewrite !filter_cons. simpl.
    destruct (decide (x.2 = c)); csimpl; by rewrite IH. }
  rewrite Hmap.
  destruct (filter_prefix (λ x : string * nat, x.2 = c) (take 10 s) s
              (prefix_take s 10)) as [rest ->].
  rewrite fmap_app. by eexists.
Qed.

(** ** Strings: trimming *)

Lemma lstrip_head s :
  PyStr.lstrip s = EmptyString
  ∨ ∃ c t, PyStr.lstrip s = String c t ∧ PyStr.is_space c = false.
Proof.
  induction s as [|c s IH]; simpl; [by left|].
  destruct (PyStr.is_space c) eqn:Hc; [done|]. right. by exists c, s.
Qed.

Lemma rstrip_idem s : PyStr.rstrip (PyStr.rstrip s) = PyStr.rstrip s.
Proof.
  induction s as [|c s IH]; simpl; [done|].
  destruct (PyStr.rstrip s) as [|d r] eqn:Hr.
  - destruct (PyStr.is_space c) eqn:Hc; simpl; [done|]. by rewrite Hc.
  - simpl in *. by rewrite IH.
Qed.

Lemma rstrip_head c s :
  PyStr.is_space c = false →
  ∃ t, PyStr.rstrip (String c s) = String c t.
Proof.
  intros Hc. simpl. destruct (PyStr.rstrip s); rewrite ?Hc; eauto.
Qed.

Lemma strip_idem s : PyStr.strip (PyStr.strip s) = PyStr.strip s.
Proof.
  unfold PyStr.strip.
  destruct (lstrip_head s) as [-> | (c & t & -> & Hc)]; [done|].
  destruct (rstrip_head c t Hc) as [t' Ht']. rewrite Ht'.
  simpl PyStr.lstrip. rewrite Hc, <- Ht'. apply rstrip_idem.
Qed.

Lemma has_char_lstrip c s :
  PyStr.has_char c s = false → PyStr.has_char c (PyStr.lstrip s) = false.
Proof.
  induction s as [|a s IH]; simpl; [done|].
  case_decide; [done|]. intros Hs.
  destruct (PyStr.is_space a); [auto|]. simpl. by rewrite decide_False.
Qed.

Lemma has_char_rstrip c s :
  PyStr.has_char c s = false → PyStr.has_char c (PyStr.rstrip s) = false.
Proof.
  induction s as [|a s IH]; simpl; [done|].
  case_decide; [done|]. intros Hs. specialize (IH Hs).
  destruct (PyStr.rstrip s) as [|d r].
  - destruct (PyStr.is_space a); simpl; [done|]. by rewrite decide_False.
  - simpl in *. by rewrite decide_False.
Qed.

Lemma has_char_strip c s :
  PyStr.has_char c s = false → PyStr.has_char c (PyStr.strip s) = false.
Proof. intros Hs. by apply has_char_rstrip, has_char_lstrip. Qed.

Lemma split1_left c s l r :
  PyStr.split1 c s = Some (l, r) → PyStr.has_char c l = false.
Proof.
  revert l. induction s as [|a s IH]; intros l; simpl; [done|].
  case_decide.
  - by intros [= <- _].
  - destruct (PyStr.split1 c s) as [[l' r']|]; [|done].
    intros [= <- <-]. simpl. rewrite decide_False by done. by apply IH.
Qed.

(** ** Document parser: what the records hold *)

Lemma append_param_clean ps param_text :
  Forall clean_param ps → Forall clean_param (append_param ps param_text).
Proof.
  intros Hps. unfold append_param.
  destruct (PyStr.has_char "=" param_text) eqn:Heq.
  - rewrite andb_true_r. destruct (PyStr.truthy param_text); [|done].
    destruct (PyStr.split1 "=" param_text) as [[k v]|] eqn:Hsplit; [|done].
    apply Forall_app. split; [done|]. constructor; [|constructor].
    split_and!; simpl; [apply strip_idem..|].
    by eapply has_char_strip, split1_left.
  - rewrite andb_false_r. destruct (PyStr.truthy param_text); [|done].
    apply Forall_app. split; [done|]. constructor; [|constructor].
    split_and!; simpl; [apply strip_idem|done|by apply has_char_strip].
Qed.

Lemma read_params_clean ul ps :
  Forall clean_param ps → Forall clean_param (read_params ul ps).
Proof.
  unfold read_params. generalize (Soup.get_text_strip <$> Soup.find_all "li" ul).
  intros texts. revert ps.
  induction texts as [|t texts IH]; intros ps Hps; simpl; [done|].
  by apply IH, append_param_clean.
Qed.

Lemma loop_step_urls st child :
  url <$> urls (loop_step st child)
  = (url <$> urls st)
    ++ (if is_url_item child then [Soup.get_text_strip child] else []).
Proof.
  unfold loop_step, is_url_item.
  destruct (Soup.is_tag "li" child) eqn:Hli; simpl.
  - destruct (PyStr.startswith _ _); simpl.
    + by rewrite fmap_app.
    + by rewrite app_nil_r.
  - rewrite app_nil_r. destruct (Soup.is_tag "ul" child); [|done].
    destruct (current_url st); [|done]. simpl.
    apply alter_extend_record_url.
Qed.

Lemma sibling_loop_urls children :
  url <$> urls (sibling_loop children)
  = Soup.get_text_strip <$> filter (λ c, is_url_item c = true) children.
Proof.
  unfold sibling_loop.
  induction children as [|c cs IH] using rev_ind; [done|].
  rewrite fold_left_app, filter_app, fmap_app. simpl.
  rewrite loop_step_urls, IH, filter_cons, filter_nil.
  by destruct (is_url_item c).
Qed.

Lemma loop_step_clean st child :
  Forall (λ u, Forall clean_param (parameters u)) (urls st) →
  Forall (λ u, Forall clean_param (parameters u)) (urls (loop_step st child)).
Proof.
  intros Hst. unfold loop_step.
  destruct (Soup.is_tag "li" child).
  - destruct (PyStr.startswith _ _); [|done]. simpl.
    apply Forall_app. split; [done|]. by repeat constructor.
  - destruct (Soup.is_tag "ul" child); [|done].
    destruct (current_url st) as [i|]; [|done]. simpl.
    apply Forall_alter; [done|]. intros u _ Hu. simpl.
    by apply read_params_clean.
Qed.

Lemma sibling_loop_clean children :
  Forall (λ u, Forall clean_param (parameters u))
         (urls (sibling_loop children)).
Proof.
  unfold sibling_loop.
  induction children as [|c cs IH] using rev_ind; [constructor|].
  rewrite fold_left_app. simpl. by apply loop_step_clean.
Qed.

(** The parsers' results, read off the loop of each. *)
Lemma with_parameters_sibling_loop (P : url_record → Prop) children :
  Forall P (urls (sibling_loop children)) →
  Forall P (with_parameters (urls (sibling_loop children))).
Proof.
  intros H. apply Forall_forall. intros u [_ Hu]%list_elem_of_filter.
  revert u Hu. by apply Forall_forall.
Qed.

Lemma sibling_loop_http children :
  Forall (λ u, PyStr.startswith "http" (url u) = true)
         (urls (sibling_loop children)).
Proof.
  apply Forall_fmap with (f := url) (P := λ s, PyStr.startswith "http" s = true).
  rewrite sibling_loop_urls. apply Forall_fmap, Forall_forall.
  intros c [Hc _]%list_elem_of_filter. simpl.
  unfold is_url_item in Hc. by apply andb_true_iff in Hc as [_ ?].
Qed.

Lemma append_param_app ps param_text :
  append_param ps param_text = ps ++ append_param [] param_text.
Proof.
  unfold append_param.
  destruct (_ && _); [destruct (PyStr.split1 _ _) as [[k v]|]|
                      destruct (PyStr.truthy _)];
    by rewrite ?app_nil_r.
Qed.

Lemma read_params_app ul ps : read_params ul ps = ps ++ read_params ul [].
Proof.
  unfold read_params. generalize (Soup.get_text_strip <$> Soup.find_all "li" ul).
  intros texts. revert ps.
  induction texts as [|t texts IH] using rev_ind; intros ps; simpl.
  - by rewrite app_nil_r.
  - rewrite !fold_left_app. simpl.
    rewrite append_param_app, IH, (append_param_app (fold_left _ _ [])).
    by rewrite app_assoc.
Qed.

(** The loop from a state whose [current_url] is the last record. *)
Lemma sibling_loop_from children us r :
  urls (fold_left loop_step children
          {| urls := us ++ [r]; current_url := Some (length us) |})
  = us ++ {| url := url r;
             parameters := parameters r
                           ++ (foldr group_step ([], []) children).1 |}
       :: (foldr group_step ([], []) children).2.
Proof.
  revert us r. induction children as [|c cs IH]; intros us r; simpl.
  - rewrite app_nil_r. by destruct r.
  - unfold loop_step at 2, group_step at 1 3, is_url_item. simpl.
    destruct (Soup.is_tag "li" c) eqn:Hli; simpl.
    + destruct (PyStr.startswith _ _); simpl.
      * rewrite length_app. simpl.
        replace (length us + 1) with (length (us ++ [r]))
          by (rewrite length_app; simpl; lia).
        rewrite IH. simpl. rewrite app_nil_r, <- app_assoc. simpl.
        by destruct r.
      * assert (Hul : Soup.is_tag "ul" c = false).
        { destruct c as [| |nm cs']; try done. simpl in *.
          apply bool_decide_eq_true in Hli. subst nm. done. }
        rewrite Hul. apply IH.
    + destruct (Soup.is_tag "ul" c); [|apply IH].
      replace (alter (extend_record c) (length us) (us ++ [r]))
        with (us ++ [extend_record c r]).
      * rewrite IH. simpl. rewrite (read_params_app c (parameters r)).
        by rewrite <- app_assoc.
      * rewrite alter_app_r_alt by lia.
        by rewrite Nat.sub_diag.
Qed.

Lemma sibling_loop_from_init children :
  urls (fold_left loop_step children loop_init)
  = (foldr group_step ([], []) children).2.
Proof.
  induction children as [|c cs IH]; simpl; [done|].
  unfold loop_step at 2, group_step at 1, is_url_item. simpl.
  destruct (Soup.is_tag "li" c) eqn:Hli; simpl.
  - destruct (PyStr.startswith _ _); simpl.
    + pose proof (sibling_loop_from cs []
                    {| url := Soup.get_text_strip c; parameters := [] |})
        as Hfrom.
      simpl in Hfrom. by rewrite Hfrom.
    + assert (Hul : Soup.is_tag "ul" c = false).
      { destruct c as [| |nm cs']; try done. simpl in *.
        apply bool_decide_eq_true in Hli. subst nm. done. }
      by rewrite Hul.
  - by destruct (Soup.is_tag "ul" c).
Qed.

(** X11: the sibling-shape loop, with its mutation of the current record
    through an alias, computes the grouping [records_of]: one record per
    list item whose text starts with [http], in document order, holding the
    parameter lines of the nested lists that follow it up to the next such
    item; the URLs are the stripped texts of these items. *)
Theorem sibling_loop_groups (children : list Soup.node) :
  urls (sibling_loop children) = records_of children
  ∧ url <$> records_of children
    = Soup.get_text_strip <$> filter (λ c, is_url_item c = true) children.
Proof.
  assert (H : urls (sibling_loop children) = records_of children)
    by apply sibling_loop_from_init.
  split; [done|]. rewrite <- H. apply sibling_loop_urls.
Qed.

Lemma li_step_cases urls li :
  ParaDoWat5.li_step urls li = urls
  ∨ ∃ url_text nested_ul,
      Soup.find "ul" li = Some nested_ul
      ∧ PyStr.startswith "http" url_text = true
      ∧ read_params nested_ul [] ≠ []
      ∧ ParaDoWat5.li_step urls li
        = urls ++ [{| url := url_text;
                      parameters := read_params nested_ul [] |}].
Proof.
  unfold ParaDoWat5.li_step.
  destruct (match Soup.find_text_child li with
            | Some t => _ | None => None end) as [url_text|]; [|by left].
  destruct (PyStr.truthy url_text); simpl; [|by left].
  destruct (PyStr.startswith "http" url_text) eqn:Hhttp; simpl; [|by left].
  destruct (Soup.find "ul" li) as [nested_ul|]; simpl; [|by left].
  destruct (read_params nested_ul []) as [|p ps] eqn:Hps; simpl; [by left|].
  right. exists url_text, nested_ul. by rewrite Hps.
Qed.

Lemma li_loop_Forall (P : url_record → Prop) lis :
  (∀ url_text nested_ul,
     PyStr.startswith "http" url_text = true →
     P {| url := url_text; parameters := read_params nested_ul [] |}) →
  Forall P (fold_left ParaDoWat5.li_step lis []).
Proof.
  intros HP. assert (Hnil : Forall P []) by constructor.
  revert Hnil. generalize (@nil url_record). intros urls Hurls.
  revert urls Hurls. induction lis as [|li lis IH]; intros urls Hurls; [done|].
  simpl. apply IH.
  destruct (li_step_cases urls li)
    as [-> | (url_text & nested_ul & _ & Hhttp & _ & ->)]; [done|].
  apply Forall_app. split; [done|]. constructor; [auto|constructor].
Qed.

(** A property of every record of the loops holds of every record that a
    parser returns. *)
Lemma parsers_Forall (P : url_record → Prop) soup :
  (∀ children, Forall P (urls (sibling_loop children))) →
  (∀ url_text nested_ul,
     PyStr.startswith "http" url_text = true →
     P {| url := url_text; parameters := read_params nested_ul [] |}) →
  Forall P (App.parse_burp_html soup)
  ∧ Forall P (ParaDoWat.parse_burp_html soup)
  ∧ match Streamlit.parse_burp_html soup with
    | inr urls => Forall P urls
    | inl _ => True
    end
  ∧ Forall P (ParaDoWat5.parse_burp_html soup).
Proof.
  intros Hloop Hli. split_and!.
  - unfold App.parse_burp_html.
    destruct (match Soup.find_with_string _ _ soup with
              | Some _ => _ | None => _ end);
      [by apply with_parameters_sibling_loop | constructor].
  - unfold ParaDoWat.parse_burp_html.
    destruct (Soup.find "ul" soup);
      [by apply with_parameters_sibling_loop | constructor].
  - unfold Streamlit.parse_burp_html.
    destruct (Soup.find "body" soup) as [body|]; [|done].
    destruct (Soup.find "ul" body);
      [by apply with_parameters_sibling_loop | constructor].
  - unfold ParaDoWat5.parse_burp_html.
    destruct (Soup.find_with_text _ _ soup) as [[h next_siblings]|];
      [|constructor].
    destruct (Soup.find_next_sibling _ next_siblings) as [main_ul|];
      [|constructor].
    by apply li_loop_Forall.
Qed.

(** X12: every URL that a parser returns starts with [http]; in the four
    programs. *)
Theorem parse_burp_html_urls_http (soup : Soup.node) :
  Forall (λ u, PyStr.startswith "http" (url u) = true)
         (App.parse_burp_html soup)
  ∧ Forall (λ u, PyStr.startswith "http" (url u) = true)
           (ParaDoWat.parse_burp_html soup)
  ∧ match Streamlit.parse_burp_html soup with
    | inr urls => Forall (λ u, PyStr.startswith "http" (url u) = true) urls
    | inl _ => True
    end
  ∧ Forall (λ u, PyStr.startswith "http" (url u) = true)
           (ParaDoWat5.parse_burp_html soup).
Proof.
  apply (parsers_Forall (λ u, PyStr.startswith "http" (url u) = true)).
  - apply sibling_loop_http.
  - by intros url_text nested_ul Hhttp.
Qed.

(** X13: every parameter that a parser returns has a trimmed key and a
    trimmed value, and its key holds no [=]; in the four programs. *)
Theorem parse_burp_html_params_clean (soup : Soup.node) :
  Forall (λ u, Forall clean_param (parameters u)) (App.parse_burp_html soup)
  ∧ Forall (λ u, Forall clean_param (parameters u))
           (ParaDoWat.parse_burp_html soup)
  ∧ match Streamlit.parse_burp_html soup with
    | inr urls => Forall (λ u, Forall clean_param (parameters u)) urls
    | inl _ => True
    end
  ∧ Forall (λ u, Forall clean_param (parameters u))
           (ParaDoWat5.parse_burp_html soup).
Proof.
  apply (parsers_Forall (λ u, Forall clean_param (parameters u))).
  - apply sibling_loop_clean.
  - intros url_text nested_ul _. simpl. apply read_params_clean. constructor.
Qed.

(** ** Extraction script and parsers *)

Lemma find_next_sibling_elem_of nm next_siblings x :
  Soup.find_next_sibling nm next_siblings = Some x →
  x ∈ next_siblings ∧ Soup.is_tag nm x = true.
Proof.
  unfold Soup.find_next_sibling.
  intros Hx%head_Some_elem_of%list_elem_of_filter. tauto.
Qed.

Lemma url_count_items ul :
  Extract.url_count ul
  = length (filter (λ c, is_url_item c = true) (Soup.children ul)).
Proof.
  unfold Extract.url_count, Soup.find_all_children, is_url_item.
  induction (Soup.children ul) as [|c cs IH]; [done|].
  rewrite !filter_cons.
  destruct (Soup.is_tag "li" c); simpl; [|done].
  rewrite filter_cons.
  destruct (PyStr.startswith _ _); simpl; [|done].
  by rewrite IH.
Qed.

(** X14: when the extraction script finds its list, the URL count it prints
    is the number of records that the sibling-shape loop opens on that list,
    and so a bound on the number of records that the parser returns for it;
    the list is a [ul] of the document. *)
Theorem extract_dynamic_urls_count (soup ul : Soup.node) (n : nat) :
  Extract.extract_dynamic_urls soup = inr (ul, n) →
  Soup.is_tag "ul" ul = true
  ∧ ul ∈ Soup.descendants soup
  ∧ n = length (urls (sibling_loop (Soup.children ul)))
  ∧ length (with_parameters (urls (sibling_loop (Soup.children ul)))) ≤ n.
Proof.
  unfold Extract.extract_dynamic_urls.
  destruct (Extract.target_h2 soup) as [[h next_siblings]|] eqn:Hh; [|done].
  destruct (Soup.find_next_sibling "ul" next_siblings) as [ul'|] eqn:Hul;
    [|done].
  intros [= -> <-]. apply find_next_sibling_elem_of in Hul as [Hin Htag].
  assert (Hn : Extract.url_count ul
               = length (urls (sibling_loop (Soup.children ul)))).
  { rewrite url_count_items.
    rewrite <- (length_fmap url), sibling_loop_urls. by rewrite length_fmap. }
  split_and!; [done| |done|].
  - unfold Extract.target_h2 in Hh.
    by eapply head_filter_ctx_siblings.
  - rewrite Hn. unfold with_parameters. apply length_filter.
Qed.

Lemma extract_dynamic_urls_count_witness :
  Soup.is_tag "ul" (Soup.Tag "ul" url_children) = true
  ∧ Soup.Tag "ul" url_children ∈ Soup.descendants section_document
  ∧ 2 = length (urls (sibling_loop
                        (Soup.children (Soup.Tag "ul" url_children))))
  ∧ length (with_parameters
              (urls (sibling_loop
                       (Soup.children (Soup.Tag "ul" url_children))))) ≤ 2.
Proof.
  apply (extract_dynamic_urls_count section_document). reflexivity.
Defined.

Lemma children_descendants n c :
  c ∈ Soup.children n → c ∈ Soup.descendants n.
Proof.
  destruct n as [| |nm cs]; simpl; [by intros ?%elem_of_nil..|].
  intros Hc. unfold Soup.descendants. rewrite descendants_ctx_Tag.
  by apply forest_ctx_siblings.
Qed.

Lemma sibling_loop_no_lists children :
  (∀ c, c ∈ children → Soup.is_tag "ul" c = false) →
  with_parameters (urls (sibling_loop children)) = [].
Proof.
  intros Hno. unfold with_parameters. apply filter_none.
  assert (H : Forall (λ u, parameters u = []) (urls (sibling_loop children))).
  { unfold sibling_loop.
    induction children as [|c cs IH] using rev_ind; [constructor|].
    rewrite fold_left_app. simpl. unfold loop_step.
    assert (Hcs : Forall (λ u, parameters u = [])
                         (urls (fold_left loop_step cs loop_init))).
    { apply IH. intros c' Hc'. apply Hno, elem_of_app. by left. }
    destruct (Soup.is_tag "li" c).
    - destruct (PyStr.startswith _ _); [|done]. simpl.
      apply Forall_app. split; [done|]. by repeat constructor.
    - rewrite (Hno c) by (apply elem_of_app; right; left). done. }
  intros u Hu. rewrite Forall_forall in H. by rewrite (H u Hu).
Qed.

Lemma li_loop_no_lists lis urls :
  (∀ li, li ∈ lis → Soup.find "ul" li = None) →
  fold_left ParaDoWat5.li_step lis urls = urls.
Proof.
  induction lis as [|li lis IH]; intros Hno; [done|]. simpl.
  assert (Hli : ParaDoWat5.li_step urls li = urls).
  { unfold ParaDoWat5.li_step. rewrite (Hno li) by left.
    destruct (match Soup.find_text_child li with
              | Some t => _ | None => None end) as [url_text|]; [|done].
    by destruct (negb _ || negb _). }
  rewrite Hli. apply IH. intros li' Hli'. apply Hno. by right.
Qed.

(** X15: each parser returns no record for a document of the shape the
    other one reads: the sibling-shape parsers when no list of the document
    has a list among its children, the nested-shape parser when no list item
    of the document holds a list. *)
Theorem parsers_read_one_shape (soup : Soup.node) :
  ((∀ ul c, ul ∈ Soup.descendants soup → Soup.is_tag "ul" ul = true →
            c ∈ Soup.children ul → Soup.is_tag "ul" c = false) →
   App.parse_burp_html soup = []
   ∧ ParaDoWat.parse_burp_html soup = []
   ∧ match Streamlit.parse_burp_html soup with
     | inr urls => urls = []
     | inl _ => True
     end)
  ∧ ((∀ li, li ∈ Soup.descendants soup → Soup.is_tag "li" li = true →
            Soup.find "ul" li = None) →
     ParaDoWat5.parse_burp_html soup = []).
Proof.
  split.
  - intros Hflat.
    assert (Hloop : ∀ ul, ul ∈ Soup.descendants soup →
                          Soup.is_tag "ul" ul = true →
              with_parameters (urls (sibling_loop (Soup.children ul))) = []).
    { intros ul Hin Htag. apply sibling_loop_no_lists. intros c Hc.
      by apply (Hflat ul c). }
    assert (Hbody : ∀ body ul, Soup.find "body" soup = Some body →
                               Soup.find "ul" body = Some ul →
              with_parameters (urls (sibling_loop (Soup.children ul))) = []).
    { intros body ul [Hbody _]%find_elem_of [Hul Htag]%find_elem_of.
      apply Hloop; [|done]. by apply (descendants_trans soup body). }
    split_and!.
    + unfold App.parse_burp_html.
      destruct (Soup.find_with_string _ _ soup) as [[h next_siblings]|] eqn:Hh.
      * destruct (Soup.find_next_sibling _ next_siblings) as [ul|] eqn:Hul;
          [|done].
        apply find_next_sibling_elem_of in Hul as [Hin Htag].
        apply Hloop; [|done]. unfold Soup.find_with_string in Hh.
        by eapply head_filter_ctx_siblings.
      * destruct (Soup.find "body" soup) as [body|] eqn:Hb; [|done].
        destruct (Soup.find "ul" body) as [ul|] eqn:Hul; [|done].
        by apply (Hbody body).
    + unfold ParaDoWat.parse_burp_html.
      destruct (Soup.find "ul" soup) as [ul|] eqn:Hul; [|done].
      apply find_elem_of in Hul as [Hin Htag]. by apply Hloop.
    + unfold Streamlit.parse_burp_html.
      destruct (Soup.find "body" soup) as [body|] eqn:Hb; [|done].
      destruct (Soup.find "ul" body) as [ul|] eqn:Hul; [|done].
      by apply (Hbody body).
  - intros Hflat. unfold ParaDoWat5.parse_burp_html.
    destruct (Soup.find_with_text _ _ soup) as [[h next_siblings]|] eqn:Hh;
      [|done].
    destruct (Soup.find_next_sibling _ next_siblings) as [ul|] eqn:Hul;
      [|done].
    apply find_next_sibling_elem_of in Hul as [Hin Htag].
    apply li_loop_no_lists. unfold Soup.find_all_children.
    intros li [Hli Hc]%list_elem_of_filter. apply Hflat; [|done].
    apply (descendants_trans soup ul); [|by apply children_descendants].
    unfold Soup.find_with_text in Hh. by eapply head_filter_ctx_siblings.
Qed.

Lemma parsers_read_one_shape_witness :
  App.parse_burp_html nested_document = []
  ∧ ParaDoWat5.parse_burp_html section_document = [].
Proof.
  split.
  - apply (proj1 (parsers_read_one_shape nested_document)).
    intros ul c Hul Htag Hc. unfold Soup.descendants in Hul. simpl in Hul.
    repeat (apply elem_of_cons in Hul as [->|Hul]);
      try (by apply elem_of_nil in Hul); try discriminate Htag;
      simpl in Hc;
      repeat (apply elem_of_cons in Hc as [->|Hc]);
      try (by apply elem_of_nil in Hc); reflexivity.
  - apply (proj2 (parsers_read_one_shape section_document)).
    intros li Hli Htag. unfold Soup.descendants in Hli. simpl in Hli.
    repeat (apply elem_of_cons in Hli as [->|Hli]);
      try (by apply elem_of_nil in Hli); try discriminate Htag; reflexivity.
Defined.

(** ** Routes *)

Lemma instances_of_nil urls k :
  instances_of urls k = [] ↔ ∀ u, u ∈ urls → k ∉ param_keys u.
Proof.
  unfold instances_of, instances, param_keys.
  induction urls as [|u urls IH]; csimpl.
  - split; [by intros _ u ?%elem_of_nil | done].
  - rewrite filter_app. split.
    + intros [Hu Hurls]%app_eq_nil u' [->|Hin]%elem_of_cons.
      * intros (p & Hk & Hp)%list_elem_of_fmap.
        eapply filter_nil_not_elem_of; [exact Hu| |].
        2: { apply list_elem_of_fmap. by exists p. }
        done.
      * by apply IH.
    + intros Hno. rewrite (proj2 IH) by (intros; apply Hno; by right).
      rewrite app_nil_r. apply filter_none.
      intros [u' p] (p' & [= -> ->] & Hp)%list_elem_of_fmap Hk. simpl in Hk.
      apply (Hno u); [left|]. apply list_elem_of_fmap. by eexists.
Qed.

Lemma get_co_occurrence_absent urls target :
  instances_of urls target = [] → get_co_occurrence urls target = [].
Proof.
  rewrite instances_of_nil. intros Hno.
  assert (Hstream : partner_stream urls target = []).
  { unfold partner_stream.
    induction urls as [|u urls IH]; csimpl; [done|].
    rewrite bool_decide_eq_false_2 by (apply Hno; left). simpl.
    apply IH. intros u' Hu'. apply Hno. by right. }
  pose proof (co_occurrence_counts_keys urls target) as Hkeys.
  rewrite Hstream in Hkeys. unfold get_co_occurrence, Dict.items.
  destruct (co_occurrence_counts urls target); [done|discriminate].
Qed.

(** X16: an upload of a file with a name whose bytes are not UTF-8 is
    answered with the unhandled [UnicodeDecodeError] and leaves the data as
    they were.  After an upload of a file with a name whose bytes decode,
    whatever the data held before, the parameter route answers 404 for a
    name on no record of the file and the entry that counts its instances
    otherwise; the relationship route answers 400 when the file gave no
    record, and the co-occurrence list of the file's records otherwise,
    which is empty for a name on no record. *)
Theorem routes_after_upload los (f : Routes.file) (st : Routes.app_data)
    (param_name : string) :
  Routes.filename f ≠ "" →
  match Routes.read_decode f with
  | inl exc => Routes.upload los (Some f) st = (st, Routes.Unhandled exc)
  | inr html_content =>
      let urls := App.parse_burp_html html_content in
      let st' := (Routes.upload los (Some f) st).1 in
      (Routes.upload los (Some f) st).2
      = Routes.Ok (App.process_urls los urls)
      ∧ (instances_of urls param_name = [] →
         Routes.get_parameter_details st' param_name
         = Routes.Error "Parameter not found" 404)
      ∧ (instances_of urls param_name ≠ [] →
         ∃ data, Routes.get_parameter_details st' param_name
                 = Routes.Ok (param_name, data)
                 ∧ App.total_occurrences data
                   = length (instances_of urls param_name))
      ∧ (urls = [] →
         Routes.get_relationships st' param_name
         = Routes.Error "No data loaded" 400)
      ∧ (urls ≠ [] →
         Routes.get_relationships st' param_name
         = Routes.Ok (param_name, get_co_occurrence urls param_name))
      ∧ (urls ≠ [] → instances_of urls param_name = [] →
         Routes.get_relationships st' param_name
         = Routes.Ok (param_name, []))
  end.
Proof.
  intros Hname. unfold Routes.upload.
  rewrite decide_False by done.
  destruct (Routes.read_decode f) as [exc|html_content]; [done|].
  simpl. generalize (App.parse_burp_html html_content). intros urls.
  unfold Routes.get_parameter_details, Routes.get_relationships. simpl.
  rewrite App_process_urls_eq. simpl. unfold App.scan.
  rewrite scan_with_get. unfold entry_after.
  split_and!.
  - done.
  - by intros ->.
  - destruct (instances_of urls param_name) as [|i l]; [done|]. intros _.
    eexists. split; [done|].
    destruct (App_visits_values (i :: l) (App.new_entry param_name))
      as (_ & -> & _).
    simpl. lia.
  - by intros ->.
  - by destruct urls.
  - intros Hurls Hno. rewrite get_co_occurrence_absent by done.
    by destruct urls.
Qed.

Lemma routes_after_upload_witness :
  Routes.get_parameter_details
    (Routes.upload elements (Some example_file) Routes.initial).1 "missing"
  = Routes.Error "Parameter not found" 404
  ∧ Routes.upload elements (Some binary_file)
      (Routes.upload elements (Some example_file) Routes.initial).1
    = ((Routes.upload elements (Some example_file) Routes.initial).1,
       Routes.Unhandled Routes.UnicodeDecodeError).
Proof.
  split.
  - apply (proj1 (proj2 (routes_after_upload elements example_file
                           Routes.initial "missing" ltac:(discriminate)))).
    reflexivity.
  - exact (routes_after_upload elements binary_file
             (Routes.upload elements (Some example_file) Routes.initial).1
             "missing" ltac:(discriminate)).
Defined.

Lemma upload_state los request_file st :
  (Routes.upload los request_file st).1 = st
  ∨ ∃ html_content,
      (Routes.upload los request_file st).1
      = {| Routes.urls := App.parse_burp_html html_content;
           Routes.processed :=
             Some (App.process_urls los
                     (App.parse_burp_html html_content)) |}.
Proof.
  unfold Routes.upload. destruct request_file as [f|]; [|by left].
  case_decide; [by left|].
  destruct (Routes.read_decode f) as [exc|html_content]; [by left|].
  right. by exists html_content.
Qed.

Lemma serve_consistent requests :
  (Routes.processed (serve requests) = None
   ∧ Routes.urls (serve requests) = [])
  ∨ ∃ los, Routes.processed (serve requests)
           = Some (App.process_urls los (Routes.urls (serve requests))).
Proof.
  unfold serve.
  induction requests as [|[los r] requests IH] using rev_ind; [by left|].
  rewrite fold_left_app. simpl.
  destruct (upload_state los r (fold_left
              (λ st r, (Routes.upload r.1 r.2 st).1) requests Routes.initial))
    as [-> | (html_content & ->)]; [done|].
  right. by exists los.
Qed.

(** X17: after any sequence of uploads, accepted or not, the two routes
    answer from the same data: where the parameter route answers
    "No data loaded" the relationship route does too, every partner that the
    relationship route lists is found by the parameter route with at least
    that many occurrences, and a name with a partner is found itself. *)
Theorem routes_agree
    (requests : list ((gset string → list string) * option Routes.file))
    (param_name : string) :
  let st := serve requests in
  (Routes.get_parameter_details st param_name
   = Routes.Error "No data loaded" 400 →
   Routes.get_relationships st param_name
   = Routes.Error "No data loaded" 400)
  ∧ ∀ relationships,
      Routes.get_relationships st param_name
      = Routes.Ok (param_name, relationships) →
      Forall (λ r, ∃ data,
                Routes.get_parameter_details st (param r)
                = Routes.Ok (param r, data)
                ∧ count r ≤ App.total_occurrences data)
             relationships
      ∧ (relationships ≠ [] →
         ∃ data, Routes.get_parameter_details st param_name
                 = Routes.Ok (param_name, data)).
Proof.
  intros st. subst st.
  unfold Routes.get_parameter_details, Routes.get_relationships.
  destruct (serve_consistent requests) as [[-> ->] | [los ->]]; [done|].
  generalize (Routes.urls (serve requests)). intros urls.
  rewrite App_process_urls_eq. simpl. split.
  - by destruct (Dict.get param_name (App.scan urls).1).
  - intros relationships. destruct (nonempty urls); [|done].
    intros [= <-]. split.
    + apply Forall_forall. intros r Hr.
      destruct (co_occurrence_partner_entry urls param_name r Hr)
        as (e & -> & Hle).
      by exists e.
    + intros Hrel. unfold App.scan. rewrite scan_with_get.
      destruct (instances_of urls param_name) as [|i l] eqn:Hl.
      { by rewrite get_co_occurrence_absent in Hrel. }
      simpl. by eexists.
Qed.

(** ** The data behind the dashboard *)

Lemma data_step_param_step u pd (S : gset string) p :
  Dashboard.data_step u pd p
  = (param_step (λ _, Dict.empty) (λ u p, add_url (value_key p) u)
                u (pd, S) p).1.
Proof. done. Qed.

Lemma get_parameter_data_scan urls :
  Dashboard.get_parameter_data urls
  = (scan_with (λ _, Dict.empty) (λ u p, add_url (value_key p) u) urls).1.
Proof.
  unfold Dashboard.get_parameter_data, scan_with.
  generalize (∅ : gset string). generalize (@Dict.empty (Dict.t (list string))).
  induction urls as [|url_obj urls IH]; intros pd S; simpl; [done|].
  assert (Hin : ∀ ps pd S,
            fold_left (Dashboard.data_step (url url_obj)) ps pd
            = (fold_left (param_step (λ _, Dict.empty)
                            (λ u p, add_url (value_key p) u) (url url_obj))
                         ps (pd, S)).1).
  { clear. induction ps as [|p ps IHp]; intros pd S; simpl; [done|].
    by rewrite (IHp _ ({[key p]} ∪ S)). }
  rewrite (Hin _ pd S).
  destruct (fold_left (param_step _ _ _) (parameters url_obj) (pd, S))
    as [pd' S'].
  apply IH.
Qed.

Lemma get_parameter_data_values urls :
  Dashboard.get_parameter_data urls = dict_map App.values (App.scan urls).1.
Proof.
  rewrite get_parameter_data_scan. unfold App.scan.
  by rewrite (scan_with_map App.values (λ _, Dict.empty)
                (λ u p, add_url (value_key p) u) App.new_entry App.visit).
Qed.

(** X18: the mapping that the dashboard builds holds, for each parameter,
    the [values] of the entry that [process_urls] builds, in the same order;
    the count it shows for a parameter is the entry's [total_occurrences],
    and its "Total Instances" is the number of parameter instances of the
    records. *)
Theorem get_parameter_data_index los (urls : list url_record) :
  Dashboard.get_parameter_data urls
  = dict_map App.values (App.params (App.process_urls los urls))
  ∧ Dashboard.total_occurrences <$> Dict.values (Dashboard.get_parameter_data urls)
    = App.total_occurrences
        <$> Dict.values (App.params (App.process_urls los urls))
  ∧ Dashboard.total_instances (Dashboard.get_parameter_data urls)
    = sum_list_with (length ∘ parameters) urls.
Proof.
  rewrite App_process_urls_eq. simpl. split_and!.
  - apply get_parameter_data_values.
  - rewrite get_parameter_data_values, dict_map_values.
    rewrite <- list_fmap_compose. apply Forall_fmap_ext.
    apply scan_with_Forall; [done|].
    intros u p e He. simpl in *. unfold Dashboard.total_occurrences in *.
    rewrite add_url_sum. lia.
  - rewrite get_parameter_data_scan. unfold Dashboard.total_instances.
    apply scan_with_sum; [done|].
    intros u p e. apply add_url_sum.
Qed.

Lemma StronglySorted_strict (l : list string) :
  NoDup l → StronglySorted (in_order str_lt id false) l →
  StronglySorted (λ a b, str_lt a b = true) l.
Proof.
  intros Hnd Hl. induction Hl as [|x l Hl IH Hx]; [constructor|].
  apply NoDup_cons in Hnd as [Hnot Hnd]. constructor; [by apply IH|].
  apply Forall_forall. intros y Hy.
  rewrite Forall_forall in Hx. specialize (Hx y Hy).
  unfold in_order, stays_before in Hx. simpl in Hx.
  destruct (lt_total (lt:=str_lt) x y) as [? | [-> | Hyx]]; [done|done|].
  by rewrite Hyx in Hx.
Qed.

(** X19: the names that the dashboard lists are the keys of the records'
    parameters, each once, in strictly ascending string order; they are the
    names of [all_param_names] of the index, in another order. *)
Theorem dashboard_all_params los (urls : list url_record) :
  enumerates los →
  let all_params := Dashboard.all_params (Dashboard.get_parameter_data urls) in
  StronglySorted (λ a b, str_lt a b = true) all_params
  ∧ (∀ k, k ∈ all_params ↔ ∃ url_obj, url_obj ∈ urls ∧ k ∈ param_keys url_obj)
  ∧ all_params ≡ₚ App.all_param_names (App.process_urls los urls).
Proof.
  intros Hlos all_params. subst all_params. unfold Dashboard.all_params.
  rewrite get_parameter_data_values, dict_map_keys.
  destruct (scan_with_inv App.new_entry App.visit urls) as (Hnd & HS & Hkeys).
  fold App.scan in Hnd, HS, Hkeys. simpl in *.
  split_and!.
  - apply StronglySorted_strict; [by rewrite sorted_Permutation|].
    apply sorted_StronglySorted; apply _.
  - intros k. rewrite sorted_Permutation, Hkeys. split.
    + intros ([u p] & (url_obj & Hin & _ & Hp)%elem_of_instances & <-).
      exists url_obj. split; [done|]. apply list_elem_of_fmap. by exists p.
    + intros (url_obj & Hin & (p & -> & Hp)%list_elem_of_fmap).
      exists (url url_obj, p). split; [|done].
      apply elem_of_instances. by exists url_obj.
  - rewrite App_process_urls_eq. simpl. rewrite !sorted_Permutation, (Hlos _).
    apply NoDup_Permutation; [done|apply NoDup_elements|].
    intros k. by rewrite elem_of_elements, HS.
Qed.

Lemma dashboard_all_params_witness :
  StronglySorted (λ a b, str_lt a b = true)
    (Dashboard.all_params (Dashboard.get_parameter_data example_urls)).
Proof.
  apply (dashboard_all_params elements example_urls). by intros S.
Defined.

Lemma lower_char_idem c : PyStr.lower_char (PyStr.lower_char c) = PyStr.lower_char c.
Proof. by destruct c as [[] [] [] [] [] [] [] []]. Qed.

Lemma lower_idem s : PyStr.lower (PyStr.lower s) = PyStr.lower s.
Proof.
  induction s as [|c s IH]; simpl; [done|]. by rewrite lower_char_idem, IH.
Qed.

Lemma lower_app s1 s2 :
  PyStr.lower (s1 +:+ s2) = PyStr.lower s1 +:+ PyStr.lower s2.
Proof. induction s1 as [|c s1 IH]; simpl; [done|]. by rewrite IH. Qed.

Lemma string_app_assoc s1 s2 s3 : (s1 +:+ s2) +:+ s3 = s1 +:+ (s2 +:+ s3).
Proof. induction s1 as [|c s1 IH]; simpl; [done|]. by rewrite IH. Qed.

Lemma contains_empty s : PyStr.contains "" s = true.
Proof. by destruct s. Qed.

(** Every substring of a substring is a substring. *)
Lemma contains_app p s pre suf :
  PyStr.contains p s = true → PyStr.contains p (pre +:+ s +:+ suf) = true.
Proof.
  rewrite !contains_spec. intros (pre' & suf' & ->).
  exists (pre +:+ pre'), (suf' +:+ suf).
  by rewrite !string_app_assoc.
Qed.

(** X20: the search box of the dashboard keeps the names in their order and
    ignores the case of the search term and of the names; an empty term
    keeps every name, and a name is always found by itself. *)
Theorem filtered_params_search (all_params : list string)
    (search_term : string) :
  Dashboard.filtered_params all_params search_term `sublist_of` all_params
  ∧ Dashboard.filtered_params all_params "" = all_params
  ∧ Dashboard.filtered_params all_params (PyStr.lower search_term)
    = Dashboard.filtered_params all_params search_term
  ∧ Dashboard.filtered_params (PyStr.lower <$> all_params) search_term
    = PyStr.lower <$> Dashboard.filtered_params all_params search_term
  ∧ ∀ p, p ∈ all_params → p ∈ Dashboard.filtered_params all_params p.
Proof.
  unfold Dashboard.filtered_params. split_and!.
  - apply sublist_filter.
  - simpl. induction all_params as [|p l IH]; [done|].
    rewrite filter_cons, decide_True by apply contains_empty. by rewrite IH.
  - by rewrite lower_idem.
  - induction all_params as [|p l IH]; [done|]. csimpl.
    rewrite !filter_cons, lower_idem, IH.
    by destruct (decide _).
  - intros p Hp. apply list_elem_of_filter. split; [|done].
    apply contains_refl.
Qed.

(** ** More on the tag classifier *)

Lemma filter_sublist_impl {A} (P Q : A → Prop) `{!∀ x, Decision (P x)}
    `{!∀ x, Decision (Q x)} (l : list A) :
  (∀ x, P x → Q x) → filter P l `sublist_of` filter Q l.
Proof.
  intros HPQ. induction l as [|x l IH]; [done|].
  rewrite !filter_cons. destruct (decide (P x)) as [HP|HP].
  - rewrite decide_True by auto. by constructor.
  - destruct (decide (Q x)); [by constructor|done].
Qed.

Lemma any_pattern_in_app patterns s pre suf :
  any_pattern_in patterns s = true →
  any_pattern_in patterns (pre +:+ s +:+ suf) = true.
Proof.
  unfold any_pattern_in. rewrite !existsb_exists.
  intros (pattern & Hin & Hc). exists pattern. split; [done|].
  by apply contains_app.
Qed.

(** X21: the tags of a name do not depend on its case, a name that contains
    another name has all the tags of that name, in the same order, and the
    empty name has no tag. *)
Theorem get_auto_tags_case_and_substring (param_name : string) :
  get_auto_tags (PyStr.lower param_name) = get_auto_tags param_name
  ∧ (∀ pre suf,
       get_auto_tags param_name
       `sublist_of` get_auto_tags (pre +:+ param_name +:+ suf))
  ∧ get_auto_tags "" = [].
Proof.
  split_and!.
  - unfold get_auto_tags. by rewrite lower_idem.
  - intros pre suf. rewrite !get_auto_tags_filter, !lower_app.
    apply fmap_sublist, filter_sublist_impl.
    intros [tag patterns]. simpl. apply any_pattern_in_app.
  - reflexivity.
Qed.

(** ** The Streamlit parser beside the one of [src/Full_Files/app.py] *)

(** X22: the Streamlit parser raises [AttributeError] exactly on a document
    without [body]; on a document in which no [h2] has the string
    ["Dynamic URLs"], the parser of [src/Full_Files/app.py] returns the
    records that the Streamlit parser returns, and the empty sequence where
    the Streamlit parser raises. *)
Theorem streamlit_parse_burp_html_body (soup : Soup.node) :
  (Streamlit.parse_burp_html soup = inl Streamlit.AttributeError
   ↔ Soup.find "body" soup = None)
  ∧ ((∀ h, h ∈ Soup.descendants soup → Soup.is_tag "h2" h = true →
           Soup.string_of h ≠ Some "Dynamic URLs") →
     match Streamlit.parse_burp_html soup with
     | inr urls => App.parse_burp_html soup = urls
     | inl _ => App.parse_burp_html soup = []
     end).
Proof.
  unfold Streamlit.parse_burp_html, App.parse_burp_html. split.
  - destruct (Soup.find "body" soup) as [body|]; [|done].
    by destruct (Soup.find "ul" body).
  - intros Hno.
    assert (Hh : Soup.find_with_string "h2" "Dynamic URLs" soup = None).
    { unfold Soup.find_with_string. rewrite filter_none; [done|].
      intros [h next_siblings] Hin [Htag Hstr]. simpl in *.
      apply (Hno h); [|done..]. unfold Soup.descendants.
      apply list_elem_of_fmap. by exists (h, next_siblings). }
    rewrite Hh. destruct (Soup.find "body" soup) as [body|]; [|done].
    by destruct (Soup.find "ul" body).
Qed.

Lemma streamlit_parse_burp_html_body_witness :
  match Streamlit.parse_burp_html plain_document with
  | inr urls => App.parse_burp_html plain_document = urls
  | inl _ => App.parse_burp_html plain_document = []
  end.
Proof.
  apply (proj2 (streamlit_parse_burp_html_body plain_document)).
  intros h Hh Htag. unfold Soup.descendants in Hh. simpl in Hh.
  repeat (apply elem_of_cons in Hh as [->|Hh]);
    try (by apply elem_of_nil in Hh); discriminate Htag.
Defined.

(** ** Parameter lines *)






